(** * AuthTokenRequest (apis/v1alpha1/authtokenrequest_types.go)

    A shallow embedding of the [AuthTokenRequest] API types and of the
    validation attached to them by their kubebuilder markers: the value
    constraints ([MaxLength], [MaxItems]) and the CEL rules
    ([XValidation]) of the struct [AuthTokenRequestSpec] and of its
    fields.

    The package holds no code that serves a request.  The second part
    of the development models the reconciler that the specification
    describes (Provisioner, Minter, Publisher, Reporter, Driver) from
    the specification, and every definition of that part says so. *)

From stdpp Require Import base decidable option list strings gmap.

(** ** Imported types *)

(** [rbacv1.PolicyRule] of k8s.io/api/rbac/v1.  The package only stores
    and compares these values. *)
Module PolicyRule.
Record t : Type := mk {
  Verbs : list string;
  APIGroups : list string;
  Resources : list string;
  ResourceNames : list string;
  NonResourceURLs : list string
}.
#[global] Instance eq_dec : EqDecision t.
Proof. solve_decision. Defined.
End PolicyRule.

(** [metav1.ConditionStatus] and [metav1.Condition] of
    k8s.io/apimachinery/pkg/apis/meta/v1. *)
Inductive ConditionStatus : Type :=
  | ConditionTrue
  | ConditionFalse
  | ConditionUnknown.

#[global] Instance ConditionStatus_eq_dec : EqDecision ConditionStatus.
Proof. solve_decision. Defined.

Module Condition.
Record t : Type := mk {
  Type_ : string;
  Status : ConditionStatus;
  ObservedGeneration : Z;
  LastTransitionTime : Z;
  Reason : string;
  Message : string
}.
#[global] Instance eq_dec : EqDecision t.
Proof. solve_decision. Defined.
End Condition.

(** The part of [metav1.ObjectMeta] that identifies an object. *)
Module ObjectMeta.
Record t : Type := mk {
  Namespace : string;
  Name : string;
  Generation : Z
}.
#[global] Instance eq_dec : EqDecision t.
Proof. solve_decision. Defined.
End ObjectMeta.

(** ** The types of the package *)

(** [type Role struct]: [Namespace] and [Name] are [+required] and carry
    no other marker; [Rules] is an optional atomic list. *)
Module Role.
Record t : Type := mk {
  Namespace : string;
  Name : string;
  Rules : list PolicyRule.t
}.
#[global] Instance eq_dec : EqDecision t.
Proof. solve_decision. Defined.
End Role.

(** [type ClusterRole struct]. *)
Module ClusterRole.
Record t : Type := mk {
  Name : string;
  Rules : list PolicyRule.t
}.
#[global] Instance eq_dec : EqDecision t.
Proof. solve_decision. Defined.
End ClusterRole.

(** [type ClusterProfileRef struct], [+structType=atomic]. *)
Module ClusterProfileRef.
Record t : Type := mk {
  APIGroup : string;
  Kind : string;
  Name : string;
  Namespace : string
}.
#[global] Instance eq_dec : EqDecision t.
Proof. solve_decision. Defined.
End ClusterProfileRef.

(** [type ConfigMapRef struct], [+structType=atomic]: three fields, and
    the note that the config map is always kept in the namespace of the
    token request. *)
Module ConfigMapRef.
Record t : Type := mk {
  APIGroup : string;
  Kind : string;
  Name : string
}.
#[global] Instance eq_dec : EqDecision t.
Proof. solve_decision. Defined.
End ConfigMapRef.

(** [type AuthTokenRequestSpec struct].  [Roles] and [ClusterRoles] are
    [+optional] slices: [None] is the nil slice, whose field is absent
    from the stored object ([has(self.roles)] is false), [Some l] a slice
    that is present, the empty one included. *)
Module AuthTokenRequestSpec.
Record t : Type := mk {
  TargetClusterProfile : ClusterProfileRef.t;
  ServiceAccountName : string;
  Roles : option (list Role.t);
  ClusterRoles : option (list ClusterRole.t)
}.
#[global] Instance eq_dec : EqDecision t.
Proof. solve_decision. Defined.
End AuthTokenRequestSpec.

(** [type AuthTokenRequestStatus struct]. *)
Module AuthTokenRequestStatus.
Record t : Type := mk {
  TokenResponse : ConfigMapRef.t;
  Conditions : list Condition.t
}.
#[global] Instance eq_dec : EqDecision t.
Proof. solve_decision. Defined.
End AuthTokenRequestStatus.

(** [type AuthTokenRequest struct], [scope=Namespaced]. *)
Module AuthTokenRequest.
Record t : Type := mk {
  Meta : ObjectMeta.t;
  Spec : AuthTokenRequestSpec.t;
  Status : AuthTokenRequestStatus.t
}.
#[global] Instance eq_dec : EqDecision t.
Proof. solve_decision. Defined.
End AuthTokenRequest.

Import AuthTokenRequestSpec.

(** ** Validation *)

(** The causes of a rejection: a value constraint of the schema, or a
    CEL rule with its [message]. *)
Inductive FieldError : Type :=
  | TooLong (field : string) (max : nat)
  | TooMany (field : string) (max : nat)
  | Invalid (field : string) (message : string).

#[global] Instance FieldError_eq_dec : EqDecision FieldError.
Proof. solve_decision. Defined.

(** [+kubebuilder:validation:MaxLength=n], on the characters of the
    string. *)
Definition MaxLength (n : nat) (field : string) (v : string) : list FieldError :=
  if bool_decide (String.length v ≤ n) then [] else [TooLong field n].

(** [+kubebuilder:validation:MaxItems=n], on an optional list: an absent
    field is not checked. *)
Definition MaxItems {A} (n : nat) (field : string) (v : option (list A))
  : list FieldError :=
  match v with
  | None => []
  | Some l => if bool_decide (length l ≤ n) then [] else [TooMany field n]
  end.

(** CEL's [has(self.f)] on an optional field. *)
Definition has {A} (f : option A) : bool :=
  match f with Some _ => true | None => false end.

(** [+kubebuilder:validation:XValidation:rule=...,message=...]: the rule
    rejects with its message when it evaluates to false. *)
Definition XValidation (field message : string) (rule : bool) : list FieldError :=
  if rule then [] else [Invalid field message].

(** A rule that mentions [oldSelf] is a transition rule: it runs on an
    update only, and only where the old and the new object both have a
    value.  On an optional field it is skipped by an update that sets or
    unsets the field, which is why the struct has rules on the presence
    of its two optional fields. *)
Definition transition {A} (rule : A → A → bool) (oldSelf self : option A) : bool :=
  match oldSelf, self with
  | Some o, Some s => rule o s
  | _, _ => true
  end.

(** rule="self == oldSelf" *)
Definition self_eq_oldSelf {A} `{EqDecision A} (oldSelf self : A) : bool :=
  bool_decide (self = oldSelf).

(** rule="!has(oldSelf.roles) || has(self.roles)" *)
Definition roles_required_once_set (oldSelf self : t) : bool :=
  negb (has (Roles oldSelf)) || has (Roles self).

(** rule="!has(oldSelf.clusterRoles) || has(self.clusterRoles)" *)
Definition clusterRoles_required_once_set (oldSelf self : t) : bool :=
  negb (has (ClusterRoles oldSelf)) || has (ClusterRoles self).

(** The value constraints of the fields of the spec. *)
Definition validateSchema (self : t) : list FieldError :=
  MaxLength 63 "serviceAccountName" (ServiceAccountName self)
  ++ MaxItems 20 "roles" (Roles self)
  ++ MaxItems 20 "clusterRoles" (ClusterRoles self).

(** The CEL rules, in the order of the source: the two rules of the
    struct, then the rule of each field.  The two required fields have a
    value in every object. *)
Definition validateTransition (oldSelf self : t) : list FieldError :=
  XValidation "spec" "Roles is required once set"
    (roles_required_once_set oldSelf self)
  ++ XValidation "spec" "ClusterRoles is required once set"
    (clusterRoles_required_once_set oldSelf self)
  ++ XValidation "targetClusterProfile" "TargetClusterProfile is immutable"
    (self_eq_oldSelf (TargetClusterProfile oldSelf) (TargetClusterProfile self))
  ++ XValidation "serviceAccountName" "ServiceAccountName is immutable"
    (self_eq_oldSelf (ServiceAccountName oldSelf) (ServiceAccountName self))
  ++ XValidation "roles" "Roles is immutable"
    (transition self_eq_oldSelf (Roles oldSelf) (Roles self))
  ++ XValidation "clusterRoles" "ClusterRoles is immutable"
    (transition self_eq_oldSelf (ClusterRoles oldSelf) (ClusterRoles self)).

(** The API server checks the CEL rules of an object only when its
    schema validation found no blocking error; too long and too many
    are blocking. *)
Definition hasBlockingErr (errs : list FieldError) : bool :=
  existsb (λ e, match e with
                | TooLong _ _ | TooMany _ _ => true
                | Invalid _ _ => false
                end) errs.

(** What it reports in place of the rules it did not check. *)
Definition rulesNotChecked : FieldError :=
  Invalid "<nil>"
    "some validation rules were not checked because the object was invalid; correct the existing errors to complete validation".

(** The errors of the schema, then those of the rules, if checked. *)
Definition withRules (errs rules : list FieldError) : list FieldError :=
  errs ++ (if hasBlockingErr errs then [rulesNotChecked] else rules).

(** A create request: no old object, so no transition rule runs, and
    the spec has no other rule. *)
Definition validateCreate (self : t) : list FieldError :=
  withRules (validateSchema self) [].

(** An update request. *)
Definition validateUpdate (oldSelf self : t) : list FieldError :=
  withRules (validateSchema self) (validateTransition oldSelf self).

(** A request is accepted when validation reports nothing. *)
Definition accepted (errs : list FieldError) : bool :=
  bool_decide (errs = []).

(** ** Requests used as examples *)

Definition profile1 : ClusterProfileRef.t :=
  ClusterProfileRef.mk "multicluster.x-k8s.io" "ClusterProfile" "member-1" "fleet".

Definition profile2 : ClusterProfileRef.t :=
  ClusterProfileRef.mk "multicluster.x-k8s.io" "ClusterProfile" "member-2" "fleet".

Definition getListPods : PolicyRule.t :=
  PolicyRule.mk ["get"; "list"] [""] ["pods"] [] [].

Definition watchPods : PolicyRule.t :=
  PolicyRule.mk ["watch"] [""] ["pods"] [] [].

Definition reader : Role.t := Role.mk "ns1" "reader" [getListPods].

(** The same namespace and name as [reader], other rules. *)
Definition reader' : Role.t := Role.mk "ns1" "reader" [watchPods].

Definition writer : Role.t := Role.mk "ns1" "writer" [getListPods].

Definition viewer : ClusterRole.t := ClusterRole.mk "viewer" [getListPods].

Definition auditor : ClusterRole.t := ClusterRole.mk "auditor" [watchPods].

Definition specA : t := mk profile1 "svc-a" None None.

Definition specB : t := mk profile1 "svc-a" (Some [reader]) (Some [viewer]).


(** A spec with another value of one field. *)
Definition withRoles (v : option (list Role.t)) (s : t) : t :=
  mk (TargetClusterProfile s) (ServiceAccountName s) v (ClusterRoles s).

Definition withClusterRoles (v : option (list ClusterRole.t)) (s : t) : t :=
  mk (TargetClusterProfile s) (ServiceAccountName s) (Roles s) v.

(** The entries of the two lists rewritten one by one. *)
Definition mapEntries (fr : Role.t → Role.t) (fc : ClusterRole.t → ClusterRole.t)
    (s : t) : t :=
  mk (TargetClusterProfile s) (ServiceAccountName s)
     (map fr <$> Roles s) (map fc <$> ClusterRoles s).

(** The composite key namespace+name of a role entry. *)
Definition roleKey (r : Role.t) : string * string :=
  (Role.Namespace r, Role.Name r).

(** [specB] with its role replaced, and with its role removed. *)
Definition specB_writer : t := withRoles (Some [writer]) specB.

Definition specB_noRoles : t := withRoles None specB.

Definition specB_auditor : t := withClusterRoles (Some [auditor]) specB.

Definition specB_noClusterRoles : t := withClusterRoles None specB.

(** Two entries with the key ("ns1", "reader"). *)
Definition specDup : t := withRoles (Some [reader; reader']) specB.

(** A name of 64 characters, and of 70 with characters no object name allows. *)
Definition name64 : string :=
  "aaaaaaaaaaaaaaaaaaaaaaaaaaaaaaaaaaaaaaaaaaaaaaaaaaaaaaaaaaaaaaaa".

Definition oddName : string := name64 +:+ " /_?*A".

Definition specLongNames : t :=
  mk profile1 "svc-a"
     (Some [Role.mk oddName name64 [getListPods]])
     (Some [ClusterRole.mk oddName [getListPods]]).

(** A service account name of 64 characters, and lists of 21 entries. *)
Definition specLongAccount : t := mk profile1 name64 None None.

Definition specManyRoles : t := withRoles (Some (replicate 21 reader)) specA.

Definition specManyClusterRoles : t :=
  withClusterRoles (Some (replicate 21 viewer)) specA.

(** A request with another reference in its status. *)
Definition withTokenResponse (c : ConfigMapRef.t) (r : AuthTokenRequest.t)
  : AuthTokenRequest.t :=
  AuthTokenRequest.mk (AuthTokenRequest.Meta r) (AuthTokenRequest.Spec r)
    (AuthTokenRequestStatus.mk c
       (AuthTokenRequestStatus.Conditions (AuthTokenRequest.Status r))).

(** ** The stored spec over a sequence of update requests *)

(** The specs of [news] are submitted one after the other as updates of
    the stored spec: an accepted one replaces it, a rejected one leaves
    it as it is. *)
Fixpoint applyUpdates (stored : t) (news : list t) : t :=
  match news with
  | [] => stored
  | new :: rest =>
      if accepted (validateUpdate stored new)
      then applyUpdates new rest
      else applyUpdates stored rest
  end.

(** The number of requests of [news] that change the stored spec. *)
Fixpoint changes (stored : t) (news : list t) : nat :=
  match news with
  | [] => 0
  | new :: rest =>
      if accepted (validateUpdate stored new)
      then (if bool_decide (new = stored) then 0 else 1) + changes new rest
      else changes stored rest
  end.

(** The number of optional lists a spec does not have. *)
Definition absent (s : t) : nat :=
  (if has (Roles s) then 0 else 1) + (if has (ClusterRoles s) then 0 else 1).

(** The violations the CEL rules report about [Roles], about
    [ClusterRoles], and the four messages of the two lists. *)
Definition rolesRequired : FieldError :=
  Invalid "spec" "Roles is required once set".

Definition rolesImmutable : FieldError :=
  Invalid "roles" "Roles is immutable".

Definition clusterRolesRequired : FieldError :=
  Invalid "spec" "ClusterRoles is required once set".

Definition clusterRolesImmutable : FieldError :=
  Invalid "clusterRoles" "ClusterRoles is immutable".

(** A spec without lists, one with an empty list of roles, and requests
    that try to add a role to each. *)
Definition specEmptyRoles : t := withRoles (Some []) specA.

Definition specA_reader : t := withRoles (Some [reader]) specA.

Definition specA_viewer : t := withClusterRoles (Some [viewer]) specA_reader.

Definition specA_moved : t := mk profile2 "svc-a" (Some [reader]) None.

(** ** The reconciler *)

(** Modelled from the spec: the package declares the types only; the
    control loop that serves a request (Resource Provisioner, Token
    Minter, Token Publisher, Status Reporter and the Driver that runs
    them) is not part of it, and is written here from the component
    contracts of the specification.  Where a contract leaves a choice
    open, the choice is stated at the definition. *)

(** Modelled from the spec: an object of the target cluster is found by
    kind, namespace (empty for a cluster-scoped kind) and name. *)
Definition ObjectId : Type := string * string * string.

(** Modelled from the spec: the identity of a request, its namespace and
    name. *)
Definition Identity : Type := string * string.

(** Modelled from the spec: see [Identity]. *)
Definition identity (r : AuthTokenRequest.t) : Identity :=
  (ObjectMeta.Namespace (AuthTokenRequest.Meta r),
   ObjectMeta.Name (AuthTokenRequest.Meta r)).

(** Modelled from the spec: what the Provisioner keeps in the target
    cluster: namespaces, service accounts, roles and cluster roles with
    their rules, and the bindings of a service account to them. *)
Inductive Content : Type :=
  | NamespaceObject
  | ServiceAccountObject
  | RoleObject (rules : list PolicyRule.t)
  | RoleBindingObject (serviceAccount role : string)
  | ClusterRoleObject (rules : list PolicyRule.t)
  | ClusterRoleBindingObject (serviceAccount role : string).

#[global] Instance Content_eq_dec : EqDecision Content.
Proof. solve_decision. Defined.

(** Modelled from the spec: an object records the request it was created
    for; [None] marks an object this controller did not create. *)
Record Object : Type := mkObject {
  CreatedFor : option Identity;
  Body : Content
}.

#[global] Instance Object_eq_dec : EqDecision Object.
Proof. solve_decision. Defined.

(** Modelled from the spec: a minted token, an opaque value with its
    expiry. *)
Record Token : Type := mkToken {
  Value : nat;
  Expiry : Z
}.

#[global] Instance Token_eq_dec : EqDecision Token.
Proof. solve_decision. Defined.

(** Modelled from the spec: the error taxonomy. *)
Inductive Failure : Type :=
  | Unreachable
  | DeadlineExceeded
  | PermissionDenied
  | Conflict.

#[global] Instance Failure_eq_dec : EqDecision Failure.
Proof. solve_decision. Defined.

(** Modelled from the spec: the reason a condition states for a failure. *)
Definition reasonOf (e : Failure) : string :=
  match e with
  | Unreachable => "TargetUnreachable"
  | DeadlineExceeded => "DeadlineExceeded"
  | PermissionDenied => "PermissionDenied"
  | Conflict => "NameConflict"
  end.

(** Modelled from the spec: the calls a pass makes, by component. *)
Inductive Call : Type :=
  | ProvisionerCall (id : ObjectId)
  | MinterCall (serviceAccount : string)
  | PublisherCall (namespace name : string)
  | ReporterCall (type : string).

#[global] Instance Call_eq_dec : EqDecision Call.
Proof. solve_decision. Defined.

(** Modelled from the spec: the position of a component in the pipeline
    Provisioner, Minter, Publisher, Reporter. *)
Definition stage (c : Call) : nat :=
  match c with
  | ProvisionerCall _ => 0
  | MinterCall _ => 1
  | PublisherCall _ _ => 2
  | ReporterCall _ => 3
  end.

(** Modelled from the spec: what a pass reads and writes: the request
    with its status, the objects of the target cluster, the config maps
    of the local cluster by namespace and name, and the number of tokens
    the target cluster has issued. *)
Record World : Type := mkWorld {
  request : AuthTokenRequest.t;
  target : gmap ObjectId Object;
  configMaps : gmap (string * string) Token;
  issued : nat
}.

(** Modelled from the spec: what one pass meets: the calls to the target
    cluster that fail (by object), whether the token endpoint and the
    local write fail, and the time of the pass. *)
Record Env : Type := mkEnv {
  targetFault : ObjectId → option Failure;
  mintFault : option Failure;
  publishFault : option Failure;
  now : Z
}.

(** Modelled from the spec: a pass in which no call fails. *)
Definition quiet (time : Z) : Env := mkEnv (λ _, None) None None time.

(** Modelled from the spec: the two choices the spec leaves to the
    implementer: the namespace of the service account of a request
    without roles and cluster roles, and the lifetime of a token. *)
Record Options : Type := mkOptions {
  DefaultNamespace : string;
  TokenLifetime : Z
}.

(** *** Operations: a state, a result or a failure, and the calls made *)

(** Modelled from the spec: how an operation of a component ends: with a
    result or a failure, the world it leaves, and the calls it made. *)
Record Outcome (A : Type) : Type := mkOutcome {
  result : Failure + A;
  world : World;
  trace : list Call
}.

Arguments mkOutcome {A} _ _ _.
Arguments result {A} _.
Arguments world {A} _.
Arguments trace {A} _.

(** Modelled from the spec: an operation of a component. *)
Definition Op (A : Type) : Type := World → Outcome A.

(** Modelled from the spec: an operation that only returns. *)
Definition ret {A} (a : A) : Op A := λ w, mkOutcome (inr a) w [].

(** Modelled from the spec: an operation that only fails. *)
Definition failWith {A} (e : Failure) : Op A := λ w, mkOutcome (inl e) w [].

(** Modelled from the spec: one operation after the other; a failure of
    the first ends both, and what the first wrote stays. *)
Definition bind {A B} (m : Op A) (k : A → Op B) : Op B := λ w,
  let o := m w in
  match result o with
  | inl e => mkOutcome (inl e) (world o) (trace o)
  | inr a =>
      let o' := k a (world o) in
      mkOutcome (result o') (world o') (trace o ++ trace o')
  end.

Notation "'let*' x ':=' m 'in' k" := (bind m (λ x, k))
  (at level 10, x name, m at level 100, k at level 200).
Notation "m ';;' k" := (bind m (λ _, k))
  (at level 100, k at level 200, right associativity).

(** Modelled from the spec: the failure of a component as a value the
    Driver looks at: what follows still runs. *)
Definition attempt {A} (m : Op A) : Op (Failure + A) := λ w,
  let o := m w in mkOutcome (inr (result o)) (world o) (trace o).

(** Modelled from the spec: a call is made. *)
Definition record (c : Call) : Op unit := λ w, mkOutcome (inr tt) w [c].

(** Modelled from the spec: the call fails when the environment of the
    pass says so. *)
Definition failIf (f : option Failure) : Op unit :=
  match f with
  | Some e => failWith e
  | None => ret tt
  end.

(** Modelled from the spec: reading and writing the world. *)
Definition get : Op World := λ w, mkOutcome (inr w) w [].

(** Modelled from the spec: see [get]. *)
Definition put (w : World) : Op unit := λ _, mkOutcome (inr tt) w [].

(** Modelled from the spec: an operation on each element of a list, in
    order, up to the first failure. *)
Fixpoint forEach {A} (f : A → Op unit) (l : list A) : Op unit :=
  match l with
  | [] => ret tt
  | a :: l' => f a ;; forEach f l'
  end.

(** *** Resource Provisioner *)

(** Modelled from the spec: for a role entry, its namespace, the service
    account in that namespace, the role with its rules, and the binding
    of the account to the role.  The spec does not name the binding; it
    takes the name of the role. *)
Definition roleObjects (account : string) (r : Role.t) : list (ObjectId * Content) :=
  let ns := Role.Namespace r in
  [ (("Namespace", "", ns), NamespaceObject);
    (("ServiceAccount", ns, account), ServiceAccountObject);
    (("Role", ns, Role.Name r), RoleObject (Role.Rules r));
    (("RoleBinding", ns, Role.Name r), RoleBindingObject account (Role.Name r)) ].

(** Modelled from the spec: for a cluster role entry, the cluster role
    with its rules and the binding of the account to it. *)
Definition clusterRoleObjects (account : string) (c : ClusterRole.t)
  : list (ObjectId * Content) :=
  [ (("ClusterRole", "", ClusterRole.Name c), ClusterRoleObject (ClusterRole.Rules c));
    (("ClusterRoleBinding", "", ClusterRole.Name c),
     ClusterRoleBindingObject account (ClusterRole.Name c)) ].

(** Modelled from the spec: the objects a spec asks for, in the order
    they are ensured.  With no roles and no cluster roles it is the bare
    service account, in the default namespace. *)
Definition desiredObjects (opts : Options) (s : AuthTokenRequestSpec.t)
  : list (ObjectId * Content) :=
  let account := ServiceAccountName s in
  let roles := default [] (Roles s) in
  let clusterRoles := default [] (ClusterRoles s) in
  (if bool_decide (roles = [] ∧ clusterRoles = [])
   then [(("ServiceAccount", DefaultNamespace opts, account), ServiceAccountObject)]
   else [])
  ++ concat (roleObjects account <$> roles)
  ++ concat (clusterRoleObjects account <$> clusterRoles).

(** Modelled from the spec: an object already there satisfies the
    contract when it is a namespace (created only if missing) or was
    created for this request. *)
Definition satisfies (owner : Identity) (id : ObjectId) (o : Object) : bool :=
  bool_decide (id.1.1 = "Namespace") || bool_decide (CreatedFor o = Some owner).

(** Modelled from the spec: the creation of an object in the target
    cluster. *)
Definition createObject (id : ObjectId) (o : Object) : Op unit :=
  let* w := get in
  put (mkWorld (request w) (<[id := o]> (target w)) (configMaps w) (issued w)).

(** Modelled from the spec: create-if-absent, never adopt or mutate: the
    object is read first; a missing one is created for the request, one
    that satisfies the contract is left as it is, any other is a
    conflict.  A failing call to the target cluster changes nothing. *)
Definition ensure (env : Env) (owner : Identity) (d : ObjectId * Content) : Op unit :=
  record (ProvisionerCall d.1) ;;
  failIf (targetFault env d.1) ;;
  let* w := get in
  match target w !! d.1 with
  | None => createObject d.1 (mkObject (Some owner) d.2)
  | Some o => if satisfies owner d.1 o then ret tt else failWith Conflict
  end.

(** Modelled from the spec: the objects are ensured one after the other;
    the first failure ends the call, what was created before it stays. *)
Definition provision (opts : Options) (env : Env) : Op unit :=
  let* w := get in
  forEach (ensure env (identity (request w)))
    (desiredObjects opts (AuthTokenRequest.Spec (request w))).

(** *** Token Minter *)

(** Modelled from the spec: a bound token for the service account, from
    the token endpoint of the target cluster: a value not issued before,
    and its expiry. *)
Definition mint (opts : Options) (env : Env) : Op Token :=
  let* w := get in
  record (MinterCall (ServiceAccountName (AuthTokenRequest.Spec (request w)))) ;;
  failIf (mintFault env) ;;
  put (mkWorld (request w) (target w) (configMaps w) (S (issued w))) ;;
  ret (mkToken (S (issued w)) (now env + TokenLifetime opts)).

(** *** Token Publisher *)

(** Modelled from the spec: the config map of a request is in the
    namespace of the request; its name is derived from the identity of
    the request, here the name of the request itself. *)
Definition configMapKey (r : AuthTokenRequest.t) : string * string := identity r.

(** Modelled from the spec: the Publisher sets [Status.TokenResponse]. *)
Definition setTokenResponse (c : ConfigMapRef.t) (w : World) : World :=
  mkWorld (withTokenResponse c (request w)) (target w) (configMaps w) (issued w).

(** Modelled from the spec: the token is written to the config map of
    the request, replacing what it held, and the status refers to it. *)
Definition publish (env : Env) (tok : Token) : Op unit :=
  let* w := get in
  let key := configMapKey (request w) in
  record (PublisherCall key.1 key.2) ;;
  failIf (publishFault env) ;;
  put (setTokenResponse (ConfigMapRef.mk "" "ConfigMap" key.2)
         (mkWorld (request w) (target w) (<[key := tok]> (configMaps w)) (issued w))).

(** Modelled from the spec: the config map a request's status refers to,
    by namespace and name: the reference has no namespace and gives the
    name; the config map it means is the one of that name in the
    namespace of the request. *)
Definition tokenResponseKey (r : AuthTokenRequest.t) : string * string :=
  (ObjectMeta.Namespace (AuthTokenRequest.Meta r),
   ConfigMapRef.Name
     (AuthTokenRequestStatus.TokenResponse (AuthTokenRequest.Status r))).

(** Modelled from the spec: the postcondition of the Publisher: the token
    is published and the status refers to it. *)
Definition isPublished (w : World) : bool :=
  bool_decide (is_Some (configMaps w !! tokenResponseKey (request w)))
  && bool_decide (tokenResponseKey (request w) = configMapKey (request w)).

(** *** Status Reporter *)

(** Modelled from the spec: append or replace by type.  The record of
    the type, if there is one, is replaced where it stands, and keeps the
    time of its last transition when the status is the same; a type not
    yet reported is appended. *)
Fixpoint setCondition (c : Condition.t) (cs : list Condition.t) : list Condition.t :=
  match cs with
  | [] => [c]
  | c0 :: rest =>
      if bool_decide (Condition.Type_ c0 = Condition.Type_ c) then
        (if bool_decide (Condition.Status c0 = Condition.Status c)
         then Condition.mk (Condition.Type_ c) (Condition.Status c)
                (Condition.ObservedGeneration c) (Condition.LastTransitionTime c0)
                (Condition.Reason c) (Condition.Message c)
         else c) :: rest
      else c0 :: setCondition c rest
  end.

(** Modelled from the spec: the conditions of the request of a world. *)
Definition conditions (w : World) : list Condition.t :=
  AuthTokenRequestStatus.Conditions (AuthTokenRequest.Status (request w)).

(** Modelled from the spec: the status written with other conditions. *)
Definition withConditions (cs : list Condition.t) (w : World) : World :=
  let r := request w in
  mkWorld
    (AuthTokenRequest.mk (AuthTokenRequest.Meta r) (AuthTokenRequest.Spec r)
       (AuthTokenRequestStatus.mk
          (AuthTokenRequestStatus.TokenResponse (AuthTokenRequest.Status r)) cs))
    (target w) (configMaps w) (issued w).

(** Modelled from the spec: what the Driver asks the Reporter to record:
    type, status, reason. *)
Definition Report : Type := string * ConditionStatus * string.

(** Modelled from the spec: a condition is set, with the generation of
    the request and the time of the pass. *)
Definition reportOne (env : Env) (r : Report) : Op unit :=
  let* w := get in
  record (ReporterCall r.1.1) ;;
  put (withConditions
         (setCondition
            (Condition.mk r.1.1 r.1.2
               (ObjectMeta.Generation (AuthTokenRequest.Meta (request w)))
               (now env) r.2 "")
            (conditions w))
         w).

(** Modelled from the spec: the conditions of a pass, one by one. *)
Definition report (env : Env) (rs : list Report) : Op unit :=
  forEach (reportOne env) rs.

(** *** Reconciliation Driver *)

(** Modelled from the spec: one pass.  Provisioner, then Minter, then
    Publisher, then Reporter; the first failure ends the pipeline and is
    reported: the request is then not ready, with the reason of the
    failure, and degraded; mint and publish are skipped when the token
    is already published and referred to by the status. *)
Definition pass (opts : Options) (env : Env) : Op unit :=
  let* p := attempt (provision opts env) in
  match p with
  | inl e =>
      report env [("Provisioned", ConditionFalse, reasonOf e);
                  ("Ready", ConditionFalse, reasonOf e);
                  ("Degraded", ConditionTrue, reasonOf e)]
  | inr _ =>
      let* w := get in
      if isPublished w then
        report env [("Provisioned", ConditionTrue, "Provisioned");
                    ("TokenIssued", ConditionTrue, "TokenIssued");
                    ("Ready", ConditionTrue, "Published");
                    ("Degraded", ConditionFalse, "Reconciled")]
      else
        let* t := attempt (mint opts env) in
        match t with
        | inl e =>
            report env [("Provisioned", ConditionTrue, "Provisioned");
                        ("TokenIssued", ConditionFalse, reasonOf e);
                        ("Ready", ConditionFalse, reasonOf e);
                        ("Degraded", ConditionTrue, reasonOf e)]
        | inr tok =>
            let* c := attempt (publish env tok) in
            match c with
            | inl e =>
                report env [("Provisioned", ConditionTrue, "Provisioned");
                            ("TokenIssued", ConditionTrue, "TokenIssued");
                            ("Ready", ConditionFalse, reasonOf e);
                            ("Degraded", ConditionTrue, reasonOf e)]
            | inr _ =>
                report env [("Provisioned", ConditionTrue, "Provisioned");
                            ("TokenIssued", ConditionTrue, "TokenIssued");
                            ("Ready", ConditionTrue, "Published");
                            ("Degraded", ConditionFalse, "Reconciled")]
            end
        end
  end.

(** Modelled from the spec: the failure a pass ends with, if any: that
    of the Provisioner, or, when the token is not yet published, that of
    the Minter or of the Publisher. *)
Definition failureOf (opts : Options) (env : Env) (w : World) : option Failure :=
  let p := provision opts env w in
  match result p with
  | inl e => Some e
  | inr _ =>
      if isPublished (world p) then None
      else match mintFault env with
           | Some e => Some e
           | None => publishFault env
           end
  end.

(** Modelled from the spec: the record of a request that is not ready,
    with the time of the pass and the reason of the failure. *)
Definition notReady (env : Env) (w : World) (e : Failure) : Condition.t :=
  Condition.mk "Ready" ConditionFalse
    (ObjectMeta.Generation (AuthTokenRequest.Meta (request w)))
    (now env) (reasonOf e) "".

(** Modelled from the spec: the world after a pass. *)
Definition reconcile (opts : Options) (env : Env) (w : World) : World :=
  world (pass opts env w).

(** Modelled from the spec: the calls of a pass, in the order made. *)
Definition callsOf (opts : Options) (env : Env) (w : World) : list Call :=
  trace (pass opts env w).

(** Modelled from the spec: the passes of a request's lifetime, one per
    environment, each from the world the one before left. *)
Fixpoint reconcileAll (opts : Options) (envs : list Env) (w : World) : World :=
  match envs with
  | [] => w
  | env :: rest => reconcileAll opts rest (reconcile opts env w)
  end.

(** *** Worlds used as examples *)

Definition options1 : Options := mkOptions "default" 3600.

Definition requestA : AuthTokenRequest.t :=
  AuthTokenRequest.mk (ObjectMeta.mk "team-a" "token-a" 1) specA
    (AuthTokenRequestStatus.mk (ConfigMapRef.mk "" "" "") []).

Definition requestB0 : AuthTokenRequest.t :=
  AuthTokenRequest.mk (ObjectMeta.mk "team-a" "token-b" 1) specB
    (AuthTokenRequestStatus.mk (ConfigMapRef.mk "" "" "") []).

Definition worldA : World := mkWorld requestA ∅ ∅ 0.

Definition worldB : World := mkWorld requestB0 ∅ ∅ 0.

(** A target cluster with a role ns1/reader that no request created. *)
Definition worldConflict : World :=
  mkWorld requestB0
    {[ ("Role", "ns1", "reader") := mkObject None (RoleObject []) ]} ∅ 0.

(** The target cluster cannot be reached. *)
Definition unreachable (time : Z) : Env :=
  mkEnv (λ _, Some Unreachable) None None time.

(** The calls that create roles are denied. *)
Definition rolesDenied (time : Z) : Env :=
  mkEnv (λ id, if bool_decide (id.1.1 = "Role") then Some PermissionDenied else None)
    None None time.

(** The token endpoint cannot be reached. *)
Definition mintDown (time : Z) : Env := mkEnv (λ _, None) (Some Unreachable) None time.

(** *** Notions used to state the facts on the reconciler *)

(** The four ways a call of [ensure] ends. *)
Inductive ensure_case (owner : Identity) (env : Env) (d : ObjectId * Content)
    (w : World) : Outcome unit → Prop :=
  | ensure_fault e :
      targetFault env d.1 = Some e →
      ensure_case owner env d w (mkOutcome (inl e) w [ProvisionerCall d.1])
  | ensure_created :
      targetFault env d.1 = None →
      target w !! d.1 = None →
      ensure_case owner env d w
        (mkOutcome (inr tt)
           (mkWorld (request w) (<[d.1 := mkObject (Some owner) d.2]> (target w))
              (configMaps w) (issued w))
           [ProvisionerCall d.1])
  | ensure_kept o :
      targetFault env d.1 = None →
      target w !! d.1 = Some o →
      satisfies owner d.1 o = true →
      ensure_case owner env d w (mkOutcome (inr tt) w [ProvisionerCall d.1])
  | ensure_conflict o :
      targetFault env d.1 = None →
      target w !! d.1 = Some o →
      satisfies owner d.1 o = false →
      ensure_case owner env d w (mkOutcome (inl Conflict) w [ProvisionerCall d.1]).

(** An operation keeps a relation between the world it starts from and
    the world it ends in. *)
Definition preserves (R : relation World) {A} (m : Op A) : Prop :=
  ∀ w, R w (world (m w)).

(** The request keeps its identity and its spec, and the types of its
    conditions are kept in their order, new ones after them. *)
Definition typesOf (w : World) : list string := Condition.Type_ <$> conditions w.

Definition keeps (w w' : World) : Prop :=
  AuthTokenRequest.Meta (request w') = AuthTokenRequest.Meta (request w)
  ∧ AuthTokenRequest.Spec (request w') = AuthTokenRequest.Spec (request w)
  ∧ typesOf w `prefix_of` typesOf w'.

(** The objects of the target cluster are the same. *)
Definition sameTarget (w w' : World) : Prop := target w' = target w.

(** The request keeps its metadata, and a config map that is new or has
    another content is in the namespace of the request. *)
Definition placed (w w' : World) : Prop :=
  AuthTokenRequest.Meta (request w') = AuthTokenRequest.Meta (request w)
  ∧ ∀ ns name tok,
      configMaps w' !! (ns, name) = Some tok →
      configMaps w !! (ns, name) = Some tok
      ∨ ns = ObjectMeta.Namespace (AuthTokenRequest.Meta (request w)).

(** The conditions and the metadata of the request are the same. *)
Definition sameConditions (w w' : World) : Prop :=
  conditions w' = conditions w
  ∧ AuthTokenRequest.Meta (request w') = AuthTokenRequest.Meta (request w).

(** The config maps, the reference of the status and the metadata of
    the request are the same. *)
Definition sameToken (w w' : World) : Prop :=
  configMaps w' = configMaps w
  ∧ AuthTokenRequestStatus.TokenResponse (AuthTokenRequest.Status (request w'))
    = AuthTokenRequestStatus.TokenResponse (AuthTokenRequest.Status (request w))
  ∧ AuthTokenRequest.Meta (request w') = AuthTokenRequest.Meta (request w).

(** The conditions after the reports [rs], from the conditions [cs]. *)
Definition reported (env : Env) (generation : Z) (rs : list Report)
    (cs : list Condition.t) : list Condition.t :=
  foldl (λ cs r, setCondition
                   (Condition.mk r.1.1 r.1.2 generation (now env) r.2 "") cs)
    cs rs.

(** Calls are in the order of the pipeline. *)
Definition ordered (tr : list Call) : Prop :=
  ∀ i j a b, tr !! i = Some a → tr !! j = Some b → stage a < stage b → i < j.

(** Projections of explicit outcomes and worlds, nothing else unfolded. *)
Ltac project :=
  cbn [result world trace request target configMaps issued app fst snd].

(** The same through the sequencing of operations. *)
Ltac sequence :=
  cbn [bind attempt get result world trace app].

(** ** Facts on the validation functions *)

Section ValidationFacts.

Implicit Types (oldSelf self : t) (e : FieldError).

Lemma XValidation_nil field message rule :
  XValidation field message rule = [] ↔ rule = true.
Proof. unfold XValidation. destruct rule; split; congruence. Qed.

Lemma XValidation_elem e field message rule :
  e ∈ XValidation field message rule ↔
  rule = false ∧ e = Invalid field message.
Proof.
  unfold XValidation. destruct rule.
  - rewrite elem_of_nil. split; [tauto | intros [? _]; congruence].
  - rewrite list_elem_of_singleton. split; [auto | tauto].
Qed.

Lemma MaxLength_nil n field v :
  MaxLength n field v = [] ↔ String.length v ≤ n.
Proof.
  unfold MaxLength. case_bool_decide; split; done.
Qed.

Lemma MaxLength_elem e n field v :
  e ∈ MaxLength n field v ↔ n < String.length v ∧ e = TooLong field n.
Proof.
  unfold MaxLength. case_bool_decide.
  - rewrite elem_of_nil. split; [tauto | lia].
  - rewrite list_elem_of_singleton. split; [intros ->; split; [lia | done] | tauto].
Qed.

Lemma MaxItems_nil {A} n field (v : option (list A)) :
  MaxItems n field v = [] ↔ ∀ l, v = Some l → length l ≤ n.
Proof.
  unfold MaxItems. destruct v as [l|].
  - case_bool_decide; split; try done.
    + intros _ l' [= <-]. done.
    + intros H'. specialize (H' l eq_refl). lia.
  - split; [intros _ l; congruence | done].
Qed.

Lemma MaxItems_elem {A} e n field (v : option (list A)) :
  e ∈ MaxItems n field v ↔
  (∃ l, v = Some l ∧ n < length l) ∧ e = TooMany field n.
Proof.
  unfold MaxItems. destruct v as [l|].
  - case_bool_decide.
    + rewrite elem_of_nil. split; [tauto |].
      intros [(l' & [= <-] & ?) _]. lia.
    + rewrite list_elem_of_singleton. split; [| tauto].
      intros ->. split; [| done]. exists l. split; [done | lia].
  - rewrite elem_of_nil. split; [tauto |].
    intros [(l' & ? & _) _]. congruence.
Qed.

Lemma accepted_true errs : accepted errs = true ↔ errs = [].
Proof. unfold accepted. apply bool_decide_eq_true. Qed.

Lemma accepted_false errs : accepted errs = false ↔ errs ≠ [].
Proof. unfold accepted. apply bool_decide_eq_false. Qed.

(** Every error of the transition rules is an [Invalid]. *)
Lemma validateTransition_Invalid oldSelf self e :
  e ∈ validateTransition oldSelf self → ∃ f m, e = Invalid f m.
Proof.
  unfold validateTransition. rewrite !elem_of_app, !XValidation_elem.
  intros H. repeat destruct H as [H | H]; destruct H as [_ ->]; eauto.
Qed.

(** The errors of the schema are blocking, all of them. *)
Lemma validateSchema_blocking self :
  hasBlockingErr (validateSchema self) = negb (bool_decide (validateSchema self = [])).
Proof.
  unfold validateSchema, MaxLength, MaxItems.
  destruct (Roles self) as [lr|], (ClusterRoles self) as [lc|];
    repeat case_bool_decide; done.
Qed.

Lemma withRules_nil errs rules :
  withRules errs rules = [] ↔ errs = [] ∧ rules = [].
Proof.
  unfold withRules. split.
  - intros H. apply app_nil in H as [-> H]. done.
  - intros [-> ->]. done.
Qed.

(** The errors of an update: those of the schema alone, with the note
    that the rules were not checked, or those of the rules. *)
Lemma validateUpdate_cases oldSelf self :
  (validateSchema self ≠ []
   ∧ validateUpdate oldSelf self = validateSchema self ++ [rulesNotChecked])
  ∨ (validateSchema self = []
     ∧ validateUpdate oldSelf self = validateTransition oldSelf self).
Proof.
  unfold validateUpdate, withRules. rewrite validateSchema_blocking.
  case_bool_decide as H; simpl; [right | left]; [| done].
  split; [done |]. by rewrite H.
Qed.

Lemma validateCreate_cases self :
  (validateSchema self ≠ []
   ∧ validateCreate self = validateSchema self ++ [rulesNotChecked])
  ∨ (validateSchema self = [] ∧ validateCreate self = []).
Proof.
  unfold validateCreate, withRules. rewrite validateSchema_blocking.
  case_bool_decide as H; simpl; [right | left]; [| done].
  split; [done |]. by rewrite H.
Qed.

Lemma validateCreate_nil self : validateCreate self = [] ↔ validateSchema self = [].
Proof. unfold validateCreate. rewrite withRules_nil. tauto. Qed.

(** The errors of the schema are reported as they are, on create and on
    update; the others reported are [Invalid]. *)
Lemma validateCreate_schema self e :
  (∀ f m, e ≠ Invalid f m) → e ∈ validateCreate self ↔ e ∈ validateSchema self.
Proof.
  intros He. destruct (validateCreate_cases self) as [[_ ->] | [Hs ->]].
  - rewrite elem_of_app, list_elem_of_singleton. split; [| auto].
    intros [? | ->]; [done |]. by destruct (He _ _ eq_refl).
  - by rewrite Hs.
Qed.

Lemma validateUpdate_schema oldSelf self e :
  (∀ f m, e ≠ Invalid f m) →
  e ∈ validateUpdate oldSelf self ↔ e ∈ validateSchema self.
Proof.
  intros He. destruct (validateUpdate_cases oldSelf self) as [[_ ->] | [Hs ->]].
  - rewrite elem_of_app, list_elem_of_singleton. split; [| auto].
    intros [? | ->]; [done |]. by destruct (He _ _ eq_refl).
  - rewrite Hs, elem_of_nil. split; [| done].
    intros H. apply validateTransition_Invalid in H as (f & m & ->).
    by destruct (He f m).
Qed.

(** When an update is accepted. *)
Lemma validateUpdate_nil oldSelf self :
  validateUpdate oldSelf self = [] ↔
    validateSchema self = []
    ∧ roles_required_once_set oldSelf self = true
    ∧ clusterRoles_required_once_set oldSelf self = true
    ∧ TargetClusterProfile self = TargetClusterProfile oldSelf
    ∧ ServiceAccountName self = ServiceAccountName oldSelf
    ∧ transition self_eq_oldSelf (Roles oldSelf) (Roles self) = true
    ∧ transition self_eq_oldSelf (ClusterRoles oldSelf) (ClusterRoles self) = true.
Proof.
  unfold validateUpdate. rewrite withRules_nil. unfold validateTransition.
  rewrite !app_nil, !XValidation_nil.
  unfold self_eq_oldSelf at 1 2. rewrite !bool_decide_eq_true. tauto.
Qed.

Lemma transition_eq_true {A} `{EqDecision A} (o s : option A) :
  transition self_eq_oldSelf o s = true ↔ ∀ a b, o = Some a → s = Some b → b = a.
Proof.
  destruct o as [a|], s as [b|]; simpl; unfold self_eq_oldSelf;
    rewrite ?bool_decide_eq_true.
  - split; [intros -> ?? [= <-] [= <-]; done | eauto].
  - split; [intros _ ?? _; congruence | done].
  - split; [intros _ ?? ?; congruence | done].
  - split; [intros _ ?? ?; congruence | done].
Qed.

(** Present once set, and unchanged when present on both sides: the
    field of the old object is the field of the new one. *)
Lemma once_set_same {A} (o s : option A) :
  (negb (has o) || has s = true ∧ ∀ a b, o = Some a → s = Some b → b = a)
  ↔ ∀ lo, o = Some lo → s = Some lo.
Proof.
  destruct o as [a|], s as [b|]; simpl; split.
  - intros [_ H] lo [= <-]. f_equal. by apply H.
  - intros H. split; [done |]. intros a' b' [= <-] [= <-].
    by specialize (H a eq_refl) as [= ->].
  - intros [? _]. done.
  - intros H. by specialize (H a eq_refl).
  - intros _ lo ?. done.
  - intros _. split; [done |]. intros a' b' ?. done.
  - intros _ lo ?. done.
  - intros _. split; [done |]. intros a' b' ?. done.
Qed.

End ValidationFacts.

(** ** Facts on the reconciler *)

Section ProvisionerFacts.

Variables (owner : Identity).

Implicit Types (env : Env) (w : World) (d : ObjectId * Content)
  (l : list (ObjectId * Content)).

Lemma ensure_cases env d w : ensure_case owner env d w (ensure env owner d w).
Proof.
  unfold ensure, bind, record, failIf, get, createObject, put, ret, failWith.
  simpl.
  destruct (targetFault env d.1) as [e|] eqn:Hf; simpl.
  { by apply ensure_fault. }
  destruct (target w !! d.1) as [o|] eqn:Hl; simpl.
  - destruct (satisfies owner d.1 o) eqn:Hs; simpl.
    + by eapply ensure_kept.
    + by eapply ensure_conflict.
  - by apply ensure_created.
Qed.

Lemma forEach_cons {A} (f : A → Op unit) a (l : list A) w :
  forEach f (a :: l) w = (f a ;; forEach f l) w.
Proof. reflexivity. Qed.

(** What is in the target cluster stays as it is. *)
Lemma forEach_ensure_mono env l w :
  target w ⊆ target (world (forEach (ensure env owner) l w)).
Proof.
  revert w. induction l as [|d l IH]; intros w; [done |].
  rewrite forEach_cons. unfold bind.
  destruct (ensure_cases env d w) as [e Hf | Hf Hl | o Hf Hl Hs | o Hf Hl Hs];
    project; try done.
  etrans; [| apply IH]. project. by apply insert_subseteq.
Qed.

(** A successful call leaves an object that satisfies the contract. *)
Lemma ensure_ok_satisfied env d w :
  result (ensure env owner d w) = inr tt →
  targetFault env d.1 = None
  ∧ ∃ o, target (world (ensure env owner d w)) !! d.1 = Some o
         ∧ satisfies owner d.1 o = true.
Proof.
  destruct (ensure_cases env d w) as [e Hf | Hf Hl | o Hf Hl Hs | o Hf Hl Hs];
    project; try done; intros _; split; try done.
  - eexists. split; [apply lookup_insert_eq |].
    unfold satisfies. project. rewrite (bool_decide_eq_true_2 (Some owner = _)) by done.
    apply orb_true_r.
  - eauto.
Qed.

(** Where the object is there and satisfies the contract, the call
    changes nothing, and fails only by a fault of the target cluster. *)
Lemma ensure_satisfied env d w o :
  target w !! d.1 = Some o → satisfies owner d.1 o = true →
  world (ensure env owner d w) = w
  ∧ (targetFault env d.1 = None → result (ensure env owner d w) = inr tt).
Proof.
  intros Ho Hsat.
  destruct (ensure_cases env d w) as [e Hf | Hf Hl | o' Hf Hl Hs | o' Hf Hl Hs];
    project; try done; try congruence.
  split; [done | congruence].
Qed.

(** The call reads the target cluster only: from two worlds with the
    same objects, under the same faults, it ends the same way. *)
Lemma ensure_ext env env' d w w' :
  targetFault env = targetFault env' →
  target w = target w' →
  result (ensure env owner d w) = result (ensure env' owner d w')
  ∧ target (world (ensure env owner d w)) = target (world (ensure env' owner d w')).
Proof.
  intros He Ht.
  destruct (ensure_cases env d w) as [e Hf | Hf Hl | o Hf Hl Hs | o Hf Hl Hs];
    destruct (ensure_cases env' d w') as [e' Hf' | Hf' Hl' | o' Hf' Hl' Hs' | o' Hf' Hl' Hs'];
    project; rewrite ?Ht, ?He in *; split; congruence.
Qed.

Lemma forEach_ensure_ext env env' l w w' :
  targetFault env = targetFault env' →
  target w = target w' →
  result (forEach (ensure env owner) l w) = result (forEach (ensure env' owner) l w')
  ∧ target (world (forEach (ensure env owner) l w))
    = target (world (forEach (ensure env' owner) l w')).
Proof.
  intros He. revert w w'. induction l as [|d l IH]; intros w w' Ht; [done |].
  rewrite !forEach_cons. unfold bind.
  destruct (ensure_ext env env' d w w' He Ht) as [Hr Hw].
  rewrite <- Hr. destruct (result (ensure env owner d w)); project; [done |].
  by apply IH.
Qed.

(** A failed call wrote nothing. *)
Lemma ensure_failed env d w e :
  result (ensure env owner d w) = inl e →
  target (world (ensure env owner d w)) = target w.
Proof.
  destruct (ensure_cases env d w) as [? Hf | Hf Hl | o Hf Hl Hs | o Hf Hl Hs];
    project; done.
Qed.

(** A second call of the Provisioner, under the same faults and from
    the objects the first call left, changes nothing. *)
Lemma forEach_ensure_idem env env' l w w' :
  targetFault env' = targetFault env →
  target w' = target (world (forEach (ensure env owner) l w)) →
  target (world (forEach (ensure env' owner) l w')) = target w'.
Proof.
  intros He. revert w w'. induction l as [|d l IH]; intros w w'; [done |].
  rewrite !forEach_cons. unfold bind.
  destruct (result (ensure env owner d w)) as [e | []] eqn:Hr; project.
  - (* the first call failed: nothing was written, the call fails again *)
    intros Ht. rewrite (ensure_failed env d w e Hr) in Ht.
    destruct (ensure_ext env' env d w' w He Ht) as [Hr' Hw'].
    rewrite Hr', Hr. project.
    rewrite Hw', (ensure_failed env d w e Hr). done.
  - (* the first call succeeded: its object is still there *)
    intros Ht.
    destruct (ensure_ok_satisfied env d w Hr) as (Hf & o & Ho & Hs).
    assert (target w' !! d.1 = Some o) as Ho'.
    { rewrite Ht.
      eapply lookup_weaken; [exact Ho | apply forEach_ensure_mono]. }
    destruct (ensure_satisfied env' d w' o Ho' Hs) as [Hw' Hr'].
    rewrite Hr' by congruence. project. rewrite Hw'. eapply IH. exact Ht.
Qed.

(** When the Provisioner succeeds, every desired object is there and
    satisfies the contract. *)
Lemma forEach_ensure_ok env l w :
  result (forEach (ensure env owner) l w) = inr tt →
  ∀ d, d ∈ l →
    ∃ o, target (world (forEach (ensure env owner) l w)) !! d.1 = Some o
         ∧ satisfies owner d.1 o = true.
Proof.
  revert w. induction l as [|d0 l IH]; intros w Hr d Hd.
  { by apply elem_of_nil in Hd. }
  revert Hr. rewrite forEach_cons. unfold bind.
  destruct (result (ensure env owner d0 w)) as [e | []] eqn:Hr0; project; [done |].
  intros Hr. apply elem_of_cons in Hd as [-> | Hd]; [| by apply IH].
  destruct (ensure_ok_satisfied env d0 w Hr0) as (_ & o & Ho & Hs).
  exists o. split; [| done].
  eapply lookup_weaken; [exact Ho | apply forEach_ensure_mono].
Qed.

(** An object of the target cluster was there before the call, or was
    created by it for the request, as one of the desired objects. *)
Lemma forEach_ensure_origin env l w id o :
  target (world (forEach (ensure env owner) l w)) !! id = Some o →
  target w !! id = Some o
  ∨ (CreatedFor o = Some owner ∧ (id, Body o) ∈ l).
Proof.
  revert w. induction l as [|d l IH]; intros w; [by left |].
  rewrite forEach_cons. unfold bind.
  destruct (ensure_cases env d w) as [e Hf | Hf Hl | o' Hf Hl Hs | o' Hf Hl Hs];
    project; try by left.
  - intros H. apply IH in H as [H | [H1 H2]].
    + revert H. project. rewrite lookup_insert.
      case_decide as Hid; [| by left].
      intros [= <-]. right. split; [done |]. subst id. destruct d.
      apply list_elem_of_here.
    + right. split; [done | by apply list_elem_of_further].
  - intros H. apply IH in H as [H | [H1 H2]]; [by left |].
    right. split; [done | by apply list_elem_of_further].
Qed.

(** After a call that met faults, a call that meets none ends where it
    would have ended without the first one. *)
Lemma forEach_ensure_converge env env0 l w w' :
  (∀ id, targetFault env0 id = None) →
  target w' = target (world (forEach (ensure env owner) l w)) →
  target (world (forEach (ensure env0 owner) l w'))
  = target (world (forEach (ensure env0 owner) l w)).
Proof.
  intros Hq. revert w w'. induction l as [|d l IH]; intros w w'; [done |].
  rewrite (forEach_cons (ensure env owner)). unfold bind at 1.
  destruct (result (ensure env owner d w)) as [e | []] eqn:Hr; project.
  - intros Ht.
    assert (target (world (ensure env owner d w)) = target w) as Hsame.
    { revert Hr.
      destruct (ensure_cases env d w) as [? Hf | Hf Hl | o Hf Hl Hs | o Hf Hl Hs];
        project; done. }
    rewrite Hsame in Ht. by apply forEach_ensure_ext.
  - intros Ht.
    destruct (ensure_ok_satisfied env d w Hr) as (Hf & o & Ho & Hs).
    assert (target w' !! d.1 = Some o) as Ho'.
    { rewrite Ht.
      eapply lookup_weaken; [exact Ho | apply forEach_ensure_mono]. }
    destruct (ensure_satisfied env0 d w' o Ho' Hs) as [Hw' Hr'].
    rewrite !forEach_cons. unfold bind.
    rewrite Hr' by apply Hq. project. rewrite Hw'.
    (* without faults the first call ends as it did with them *)
    assert (ensure env0 owner d w = ensure env owner d w) as Hsame.
    { revert Hr.
      destruct (ensure_cases env d w) as [? Hg | Hg Hl | o1 Hg Hl Hs1 | o1 Hg Hl Hs1];
        destruct (ensure_cases env0 d w) as [? Hg' | Hg' Hl' | o2 Hg' Hl' Hs2 | o2 Hg' Hl' Hs2];
        project; try done; try congruence; rewrite ?Hq in *; try done. }
    rewrite Hsame, Hr. project. eapply IH. exact Ht.
Qed.

(** The calls of the Provisioner are Provisioner calls. *)
Lemma forEach_ensure_trace env l w :
  Forall (λ c, stage c = 0) (trace (forEach (ensure env owner) l w)).
Proof.
  revert w. induction l as [|d l IH]; intros w; [by constructor |].
  rewrite forEach_cons. unfold bind.
  destruct (ensure_cases env d w) as [e Hf | Hf Hl | o Hf Hl Hs | o Hf Hl Hs];
    project; repeat constructor; apply IH.
Qed.

End ProvisionerFacts.

(** *** What the operations keep *)

Section Preserves.

Context (R : relation World) `{!PreOrder R}.

Lemma preserves_ret {A} (a : A) : preserves R (ret a).
Proof. intros w. reflexivity. Qed.

Lemma preserves_failWith {A} e : preserves R (@failWith A e).
Proof. intros w. reflexivity. Qed.

Lemma preserves_failIf f : preserves R (failIf f).
Proof. destruct f; [apply preserves_failWith | apply preserves_ret]. Qed.

Lemma preserves_get : preserves R get.
Proof. intros w. reflexivity. Qed.

Lemma preserves_record c : preserves R (record c).
Proof. intros w. reflexivity. Qed.

Lemma preserves_bind {A B} (m : Op A) (k : A → Op B) :
  preserves R m → (∀ a, preserves R (k a)) → preserves R (bind m k).
Proof.
  intros Hm Hk w. unfold bind. specialize (Hm w).
  destruct (result (m w)) as [e | a]; project; [done |].
  etrans; [exact Hm | apply Hk].
Qed.

Lemma preserves_attempt {A} (m : Op A) : preserves R m → preserves R (attempt m).
Proof. intros Hm w. apply Hm. Qed.

Lemma preserves_forEach {A} (f : A → Op unit) (l : list A) :
  (∀ a, preserves R (f a)) → preserves R (forEach f l).
Proof.
  intros Hf. induction l as [|a l IH]; [apply preserves_ret |].
  apply preserves_bind; [apply Hf | intros _; apply IH].
Qed.

End Preserves.

#[local] Instance keeps_preorder : PreOrder keeps.
Proof.
  split.
  - intros w. by repeat split.
  - intros w1 w2 w3 (Hm & Hs & Hp) (Hm' & Hs' & Hp'). repeat split.
    + congruence.
    + congruence.
    + by etrans.
Qed.

#[local] Instance sameTarget_preorder : PreOrder sameTarget.
Proof.
  split; [by intros w | intros w1 w2 w3; unfold sameTarget; congruence].
Qed.

(** The Reporter replaces a record where it stands or appends one. *)
Lemma setCondition_types c cs :
  (Condition.Type_ <$> cs) `prefix_of` (Condition.Type_ <$> setCondition c cs).
Proof.
  induction cs as [|c0 cs IH]; simpl.
  - apply prefix_nil.
  - case_bool_decide as Ht.
    + case_bool_decide; simpl; rewrite ?Ht; done.
    + simpl. by apply prefix_cons.
Qed.

(** The record of a report is in the list: with the time of the report
    when the status is new, with the time of the record it replaces when
    the status is the same. *)
Lemma setCondition_recorded c cs :
  ∃ c', c' ∈ setCondition c cs
    ∧ Condition.Type_ c' = Condition.Type_ c
    ∧ Condition.Status c' = Condition.Status c
    ∧ Condition.Reason c' = Condition.Reason c
    ∧ (c' = c
       ∨ ∃ c0, c0 ∈ cs ∧ Condition.Type_ c0 = Condition.Type_ c
           ∧ Condition.Status c0 = Condition.Status c
           ∧ Condition.LastTransitionTime c' = Condition.LastTransitionTime c0).
Proof.
  induction cs as [|c0 cs IH]; simpl.
  - exists c. rewrite list_elem_of_singleton. by repeat split; auto.
  - case_bool_decide as Ht; [case_bool_decide as Hs |].
    + eexists. split; [apply list_elem_of_here |]. simpl. repeat split.
      right. exists c0. split; [apply list_elem_of_here | done].
    + exists c. split; [apply list_elem_of_here |]. repeat split. by left.
    + destruct IH as (c' & Hin & Ht' & Hs' & Hr' & Hor).
      exists c'. split; [by apply list_elem_of_further |]. repeat split; try done.
      destruct Hor as [-> | (c1 & Hin1 & ?)]; [by left | right].
      exists c1. split; [by apply list_elem_of_further | done].
Qed.

Create HintDb preserves.

(** Goals [preserves R m] by the structure of [m], down to the
    operations that write. *)
Ltac preserving_step :=
  lazymatch goal with
  | |- PreOrder _ => apply _
  | |- ∀ _, _ => intros ?
  | |- preserves _ (ret _) => apply preserves_ret
  | |- preserves _ (failWith _) => apply preserves_failWith
  | |- preserves _ (failIf _) => apply preserves_failIf
  | |- preserves _ get => apply preserves_get
  | |- preserves _ (record _) => apply preserves_record
  | |- preserves _ (attempt _) => apply preserves_attempt
  | |- preserves _ (forEach _ _) => apply preserves_forEach
  | |- preserves _ (bind _ _) => apply preserves_bind
  | |- preserves _ (match ?x with _ => _ end) => destruct x
  | |- preserves _ _ => solve [eauto with preserves]
  end.

Ltac preserving := repeat preserving_step.

Section Components.

Variables (opts : Options) (env : Env).

Lemma createObject_keeps id o : preserves keeps (createObject id o).
Proof. intros w. by repeat split. Qed.

Lemma mint_keeps : preserves keeps (mint opts env).
Proof.
  intros w. unfold mint, bind, get, record, failIf. project.
  destruct (mintFault env); by repeat split.
Qed.

Lemma mint_sameTarget : preserves sameTarget (mint opts env).
Proof.
  intros w. unfold mint, bind, get, record, failIf. project.
  by destruct (mintFault env).
Qed.

Lemma mint_trace w :
  trace (mint opts env w)
  = [MinterCall (ServiceAccountName (AuthTokenRequest.Spec (request w)))].
Proof.
  unfold mint, bind, get, record, failIf. project.
  by destruct (mintFault env).
Qed.

Lemma publish_keeps tok : preserves keeps (publish env tok).
Proof.
  intros w. unfold publish, bind, get, record, failIf. project.
  destruct (publishFault env); by repeat split.
Qed.

Lemma publish_sameTarget tok : preserves sameTarget (publish env tok).
Proof.
  intros w. unfold publish, bind, get, record, failIf. project.
  by destruct (publishFault env).
Qed.

Lemma publish_trace tok w :
  trace (publish env tok w)
  = [PublisherCall (configMapKey (request w)).1 (configMapKey (request w)).2].
Proof.
  unfold publish, bind, get, record, failIf. project.
  by destruct (publishFault env).
Qed.

Lemma reportOne_keeps r : preserves keeps (reportOne env r).
Proof.
  intros w. repeat split. apply setCondition_types.
Qed.

Lemma reportOne_sameTarget r : preserves sameTarget (reportOne env r).
Proof. by intros w. Qed.

Lemma reportOne_outcome r w :
  result (reportOne env r w) = inr tt
  ∧ trace (reportOne env r w) = [ReporterCall r.1.1].
Proof. done. Qed.

Lemma report_trace rs w :
  trace (report env rs w) = ReporterCall <$> rs.*1.*1.
Proof.
  revert w. induction rs as [|r rs IH]; intros w; [done |].
  unfold report. rewrite forEach_cons. unfold bind.
  destruct (reportOne_outcome r w) as [-> ->]. project.
  rewrite !fmap_cons. f_equal. apply IH.
Qed.

#[local] Hint Resolve createObject_keeps mint_keeps mint_sameTarget
  publish_keeps publish_sameTarget reportOne_keeps reportOne_sameTarget
  : preserves.

Lemma report_keeps rs : preserves keeps (report env rs).
Proof. unfold report. preserving. Qed.

Lemma report_sameTarget rs : preserves sameTarget (report env rs).
Proof. unfold report. preserving. Qed.

Lemma ensure_keeps owner d : preserves keeps (ensure env owner d).
Proof. unfold ensure. preserving. Qed.

Lemma provision_keeps : preserves keeps (provision opts env).
Proof. unfold provision. preserving. apply ensure_keeps. Qed.

#[local] Hint Resolve report_keeps report_sameTarget provision_keeps : preserves.

(** A pass keeps the identity and the spec of the request, and the
    condition types reported so far. *)
Lemma pass_keeps : preserves keeps (pass opts env).
Proof. unfold pass. preserving. Qed.

(** What follows the Provisioner in a pass writes nothing to the
    target cluster. *)
Lemma pass_target w :
  target (world (pass opts env w)) = target (world (provision opts env w)).
Proof.
  unfold pass. unfold bind at 1. unfold attempt at 1. project.
  match goal with
  | |- target (world (?k ?w')) = _ =>
      enough (preserves sameTarget k) as Hk by apply Hk
  end.
  preserving.
Qed.

(** The Provisioner of a pass is the loop over the desired objects. *)
Lemma provision_forEach w :
  let o := forEach (ensure env (identity (request w)))
             (desiredObjects opts (AuthTokenRequest.Spec (request w))) w in
  result (provision opts env w) = result o
  ∧ world (provision opts env w) = world o
  ∧ trace (provision opts env w) = trace o.
Proof. done. Qed.

End Components.

(** *** The calls of a pass *)

Lemma ordered_const k tr : Forall (λ c, stage c = k) tr → ordered tr.
Proof.
  intros Hk i j a b Ha Hb Hlt.
  apply list_elem_of_lookup_2 in Ha, Hb.
  rewrite Forall_forall in Hk.
  rewrite (Hk a), (Hk b) in Hlt by done. lia.
Qed.

Lemma ordered_app k tr1 tr2 :
  Forall (λ c, stage c ≤ k) tr1 → Forall (λ c, k ≤ stage c) tr2 →
  ordered tr1 → ordered tr2 → ordered (tr1 ++ tr2).
Proof.
  intros H1 H2 Ho1 Ho2 i j a b Ha Hb Hlt.
  rewrite Forall_forall in H1. rewrite Forall_forall in H2.
  apply lookup_app_Some in Ha as [Ha | [Hi Ha]];
    apply lookup_app_Some in Hb as [Hb | [Hj Hb]].
  - by eapply Ho1.
  - apply lookup_lt_Some in Ha. lia.
  - apply list_elem_of_lookup_2 in Ha, Hb.
    specialize (H1 b Hb). specialize (H2 a Ha). lia.
  - specialize (Ho2 _ _ _ _ Ha Hb Hlt). lia.
Qed.

(** The calls of a pass: those of the Provisioner, then at most one of
    the Minter, made only after the Provisioner succeeded, then at most
    one of the Publisher, then those of the Reporter. *)
Lemma pass_trace opts env w :
  ∃ ms pubs rs,
    callsOf opts env w = trace (provision opts env w) ++ ms ++ pubs ++ rs
    ∧ Forall (λ c, stage c = 1) ms
    ∧ Forall (λ c, stage c = 2) pubs
    ∧ Forall (λ c, stage c = 3) rs
    ∧ (ms ≠ [] → result (provision opts env w) = inr tt).
Proof.
  unfold callsOf, pass. sequence.
  destruct (result (provision opts env w)) as [e | []]; sequence.
  { rewrite report_trace. eexists [], [], _. split; [reflexivity |].
    split_and!; try done. by repeat constructor. }
  destruct (isPublished _); sequence.
  { rewrite report_trace. eexists [], [], _. split; [reflexivity |].
    split_and!; try done. by repeat constructor. }
  rewrite mint_trace.
  destruct (result (mint opts env _)) as [e | tok]; sequence.
  { rewrite report_trace. eexists [_], [], _. split; [reflexivity |].
    split_and!; try done; by repeat constructor. }
  rewrite publish_trace.
  destruct (result (publish env tok _)) as [e | []]; sequence;
    rewrite report_trace; (eexists [_], [_], _; split; [reflexivity |]);
    split_and!; try done; by repeat constructor.
Qed.

Lemma pass_ordered opts env w : ordered (callsOf opts env w).
Proof.
  destruct (pass_trace opts env w) as (ms & pubs & rs & -> & Hm & Hp & Hr & _).
  pose proof (forEach_ensure_trace (identity (request w)) env
                (desiredObjects opts (AuthTokenRequest.Spec (request w))) w) as H0.
  destruct (provision_forEach opts env w) as (_ & _ & Ht). rewrite <- Ht in H0.
  apply (ordered_app 0).
  - eapply Forall_impl; [exact H0 | simpl; lia].
  - repeat apply Forall_app_2; eapply Forall_impl; try eassumption; simpl; lia.
  - by eapply ordered_const.
  - apply (ordered_app 1).
    + eapply Forall_impl; [exact Hm | simpl; lia].
    + repeat apply Forall_app_2; eapply Forall_impl; try eassumption; simpl; lia.
    + by eapply ordered_const.
    + apply (ordered_app 2).
      * eapply Forall_impl; [exact Hp | simpl; lia].
      * eapply Forall_impl; [exact Hr | simpl; lia].
      * by eapply ordered_const.
      * by eapply ordered_const.
Qed.

(** The conditions over the passes of a lifetime. *)
Lemma reconcileAll_keeps opts envs w : keeps w (reconcileAll opts envs w).
Proof.
  revert w. induction envs as [|env envs IH]; intros w; [reflexivity |].
  simpl. etrans; [apply (pass_keeps opts env w) | apply IH].
Qed.

(** *** Where the token is published *)

#[local] Instance placed_preorder : PreOrder placed.
Proof.
  split.
  - intros w. split; [done | by left].
  - intros w1 w2 w3 [Hm H12] [Hm' H23]. split; [congruence |].
    intros ns name tok H3.
    destruct (H23 ns name tok H3) as [H2 | ->]; [| right; congruence].
    by apply H12.
Qed.

#[local] Instance sameConditions_preorder : PreOrder sameConditions.
Proof.
  split; [by intros w | intros w1 w2 w3 [? ?] [? ?]; split; congruence].
Qed.

#[local] Instance sameToken_preorder : PreOrder sameToken.
Proof.
  split; [by intros w | intros w1 w2 w3 (? & ? & ?) (? & ? & ?); split_and!; congruence].
Qed.

Section Publisher.

Variables (opts : Options) (env : Env).

Lemma createObject_placed id o : preserves placed (createObject id o).
Proof. intros w. split; [done | by left]. Qed.

Lemma mint_placed : preserves placed (mint opts env).
Proof.
  intros w. unfold mint, bind, get, record, failIf. project.
  destruct (mintFault env); (split; [done | by left]).
Qed.

(** The Publisher writes one config map, in the namespace of the request. *)
Lemma publish_placed tok : preserves placed (publish env tok).
Proof.
  intros w. unfold publish, bind, get, record, failIf. project.
  destruct (publishFault env); (split; [done |]); [by left |].
  intros ns name tok'. simpl. rewrite lookup_insert. case_decide as Hk; [| by left].
  intros _. right. unfold configMapKey, identity in Hk. by injection Hk as <- _.
Qed.

Lemma reportOne_placed r : preserves placed (reportOne env r).
Proof. intros w. split; [done | by left]. Qed.

#[local] Hint Resolve createObject_placed mint_placed publish_placed reportOne_placed
  : preserves.

Lemma pass_placed : preserves placed (pass opts env).
Proof. unfold pass, report, provision, ensure. preserving. Qed.

Lemma reportOne_sameToken r : preserves sameToken (reportOne env r).
Proof. by intros w. Qed.

#[local] Hint Resolve reportOne_sameToken : preserves.

Lemma report_sameToken rs : preserves sameToken (report env rs).
Proof. unfold report. preserving. Qed.

Lemma mint_ok w :
  mintFault env = None → ∃ tok, result (mint opts env w) = inr tok.
Proof.
  intros Hf. unfold mint, bind, get, record, failIf. project. rewrite Hf.
  simpl. eauto.
Qed.

(** A call of the Publisher that meets no fault leaves the token in the
    config map the status then refers to, in the namespace of the
    request. *)
Lemma publish_ok tok w :
  publishFault env = None →
  let w' := world (publish env tok w) in
  result (publish env tok w) = inr tt
  ∧ AuthTokenRequest.Meta (request w') = AuthTokenRequest.Meta (request w)
  ∧ configMaps w'
      !! (ObjectMeta.Namespace (AuthTokenRequest.Meta (request w)),
          ConfigMapRef.Name
            (AuthTokenRequestStatus.TokenResponse (AuthTokenRequest.Status (request w'))))
    = Some tok.
Proof.
  intros Hf. unfold publish, bind, get, record, failIf. project. rewrite Hf.
  simpl. split_and!; try done. apply lookup_insert_eq.
Qed.

End Publisher.

Lemma reconcileAll_placed opts envs w : placed w (reconcileAll opts envs w).
Proof.
  revert w. induction envs as [|e envs IH]; intros w; [reflexivity |].
  simpl. etrans; [apply (pass_placed opts e w) | apply IH].
Qed.


(** After a pass in which the Provisioner succeeds and neither the
    Minter nor the Publisher meets a fault, the status refers to a
    config map that is there, in the namespace of the request. *)
Lemma pass_published opts env w :
  result (provision opts env w) = inr tt →
  mintFault env = None → publishFault env = None →
  ∃ tok,
    configMaps (reconcile opts env w)
      !! (ObjectMeta.Namespace (AuthTokenRequest.Meta (request w)),
          ConfigMapRef.Name
            (AuthTokenRequestStatus.TokenResponse
               (AuthTokenRequest.Status (request (reconcile opts env w)))))
    = Some tok.
Proof.
  intros Hprov Hmint Hpub.
  destruct (provision_keeps opts env w) as (Hm1 & _ & _).
  unfold reconcile, pass. sequence. rewrite Hprov. sequence.
  set (w1 := world (provision opts env w)) in *.
  destruct (isPublished w1) eqn:Hp; sequence.
  - match goal with
    | |- context [report env ?rs w1] =>
        destruct (report_sameToken env rs w1) as (-> & -> & _)
    end.
    apply andb_prop in Hp as [Hp _]. apply bool_decide_eq_true in Hp as [tok Hp].
    exists tok. unfold tokenResponseKey in Hp. by rewrite Hm1 in Hp.
  - destruct (mint_ok opts env w1 Hmint) as [tok Hr]. rewrite Hr. sequence.
    destruct (mint_keeps opts env w1) as (Hm2 & _ & _).
    set (w2 := world (mint opts env w1)) in *.
    destruct (publish_ok env tok w2 Hpub) as (Hr3 & Hm3 & Hl).
    rewrite Hr3. sequence.
    match goal with
    | |- context [report env ?rs ?w3] =>
        destruct (report_sameToken env rs w3) as (-> & -> & _)
    end.
    exists tok. rewrite <- Hm1, <- Hm2. exact Hl.
Qed.

(** *** What a pass reports *)

Lemma setCondition_other c c0 cs :
  Condition.Type_ c0 ≠ Condition.Type_ c →
  c0 ∈ setCondition c cs ↔ c0 ∈ cs.
Proof.
  intros Hne. induction cs as [|c1 cs IH]; simpl.
  - rewrite list_elem_of_singleton, elem_of_nil. split; [intros ->; done | done].
  - case_bool_decide as Ht.
    + rewrite !elem_of_cons. split.
      * intros [-> | ?]; [| by right]. destruct Hne. by case_bool_decide.
      * intros [-> | ?]; [by destruct Hne | by right].
    + rewrite !elem_of_cons, IH. done.
Qed.

Lemma setCondition_new c cs :
  (∀ c0, c0 ∈ cs → Condition.Type_ c0 = Condition.Type_ c →
     Condition.Status c0 ≠ Condition.Status c) →
  c ∈ setCondition c cs.
Proof.
  intros Hnew.
  destruct (setCondition_recorded c cs) as (c' & Hin & _ & _ & _ & Hor).
  destruct Hor as [-> | (c0 & Hc0 & Ht & Hs & _)]; [done |].
  by destruct (Hnew c0 Hc0 Ht).
Qed.

Section Reports.

Variables (env : Env) (generation : Z).

Implicit Types (r : Report) (rs : list Report) (cs : list Condition.t).

(** Records of a type that is not reported stay as they are. *)
Lemma reported_other rs cs c0 :
  (∀ r, r ∈ rs → r.1.1 ≠ Condition.Type_ c0) →
  c0 ∈ reported env generation rs cs ↔ c0 ∈ cs.
Proof.
  revert cs. induction rs as [|r rs IH]; intros cs Hrs; [done |].
  unfold reported in *. simpl. rewrite IH.
  - apply setCondition_other. simpl. intros Heq.
    by apply (Hrs r (list_elem_of_here _ _)).
  - intros r' Hr'. apply Hrs. by apply list_elem_of_further.
Qed.

(** A report among others of other types is on record after them: with
    its status and reason, and as the very record of this pass when no
    record of its type had that status. *)
Lemma reported_entry pre r post cs :
  (∀ r', r' ∈ pre ++ post → r'.1.1 ≠ r.1.1) →
  (∃ c', c' ∈ reported env generation (pre ++ r :: post) cs
     ∧ Condition.Type_ c' = r.1.1 ∧ Condition.Status c' = r.1.2
     ∧ Condition.Reason c' = r.2)
  ∧ ((∀ c0, c0 ∈ cs → Condition.Type_ c0 = r.1.1 → Condition.Status c0 ≠ r.1.2) →
     Condition.mk r.1.1 r.1.2 generation (now env) r.2 ""
     ∈ reported env generation (pre ++ r :: post) cs).
Proof.
  intros Hothers.
  assert (Hsplit : ∀ cs0, reported env generation (pre ++ r :: post) cs0
            = reported env generation post
                (setCondition (Condition.mk r.1.1 r.1.2 generation (now env) r.2 "")
                   (reported env generation pre cs0))).
  { intros cs0. unfold reported. by rewrite foldl_app. }
  rewrite Hsplit.
  set (c := Condition.mk r.1.1 r.1.2 generation (now env) r.2 "").
  assert (Hpost : ∀ c' cs0, Condition.Type_ c' = r.1.1 →
            c' ∈ cs0 → c' ∈ reported env generation post cs0).
  { intros c' cs0 Ht Hin. apply reported_other; [| done].
    intros r' Hr'. rewrite Ht. apply Hothers. apply elem_of_app. by right. }
  split.
  - destruct (setCondition_recorded c (reported env generation pre cs))
      as (c' & Hin & Ht & Hs & Hr & _).
    exists c'. split_and!; try done. by apply Hpost.
  - intros Hnew. apply Hpost; [done |]. apply setCondition_new.
    intros c0 Hc0 Ht. apply reported_other in Hc0.
    + by apply Hnew.
    + intros r' Hr'. rewrite Ht. apply Hothers. apply elem_of_app. by left.
Qed.

(** The Reporter applies its reports in order. *)
Lemma report_conditions rs w :
  ObjectMeta.Generation (AuthTokenRequest.Meta (request w)) = generation →
  conditions (world (report env rs w)) = reported env generation rs (conditions w).
Proof.
  revert w. induction rs as [|r rs IH]; intros w Hg; [done |].
  unfold report. rewrite forEach_cons. unfold bind.
  destruct (reportOne_outcome env r w) as [-> _]. project.
  fold (report env rs). rewrite IH; [| by rewrite <- Hg].
  unfold reported. simpl. by rewrite Hg.
Qed.

End Reports.

Section Failure.

Variables (opts : Options) (env : Env).

Lemma createObject_sameConditions id o : preserves sameConditions (createObject id o).
Proof. by intros w. Qed.

Lemma mint_sameConditions : preserves sameConditions (mint opts env).
Proof.
  intros w. unfold mint, bind, get, record, failIf. project.
  by destruct (mintFault env).
Qed.

Lemma publish_sameConditions tok : preserves sameConditions (publish env tok).
Proof.
  intros w. unfold publish, bind, get, record, failIf. project.
  by destruct (publishFault env).
Qed.

#[local] Hint Resolve createObject_sameConditions : preserves.

Lemma provision_sameConditions : preserves sameConditions (provision opts env).
Proof. unfold provision, ensure. preserving. Qed.

Lemma mint_result w :
  result (mint opts env w)
  = match mintFault env with
    | Some e => inl e
    | None => inr (mkToken (S (issued w)) (now env + TokenLifetime opts))
    end.
Proof.
  unfold mint, bind, get, record, failIf. project. by destruct (mintFault env).
Qed.

Lemma publish_result tok w :
  result (publish env tok w)
  = match publishFault env with Some e => inl e | None => inr tt end.
Proof.
  unfold publish, bind, get, record, failIf. project. by destruct (publishFault env).
Qed.

(** The conditions after a pass that fails: the reports of the pass on
    the conditions before it, one of them that the request is not
    ready, with the reason of the failure. *)
Lemma pass_failure_conditions w e :
  failureOf opts env w = Some e →
  ∃ pre post,
    conditions (reconcile opts env w)
    = reported env (ObjectMeta.Generation (AuthTokenRequest.Meta (request w)))
        (pre ++ ("Ready", ConditionFalse, reasonOf e) :: post) (conditions w)
    ∧ ∀ r', r' ∈ pre ++ post → r'.1.1 ≠ "Ready".
Proof.
  unfold failureOf, reconcile, pass. sequence.
  destruct (provision_sameConditions w) as [Hc1 Hm1].
  set (w1 := world (provision opts env w)) in *.
  destruct (result (provision opts env w)) as [e1 | []]; sequence.
  { intros [= ->].
    exists [("Provisioned", ConditionFalse, reasonOf e)],
           [("Degraded", ConditionTrue, reasonOf e)].
    split.
    - rewrite (report_conditions env _ _ w1 eq_refl). by rewrite Hc1, Hm1.
    - intros r'. simpl. rewrite !elem_of_cons, !elem_of_nil.
      intros [-> | [-> | []]]; done. }
  destruct (isPublished w1); [done |]. sequence.
  rewrite mint_result.
  destruct (mint_sameConditions w1) as [Hc2 Hm2].
  set (w2 := world (mint opts env w1)) in *.
  destruct (mintFault env) as [em |]; sequence.
  { intros [= ->].
    exists [("Provisioned", ConditionTrue, "Provisioned");
            ("TokenIssued", ConditionFalse, reasonOf e)],
           [("Degraded", ConditionTrue, reasonOf e)].
    split.
    - rewrite (report_conditions env _ _ w2 eq_refl). by rewrite Hc2, Hm2, Hc1, Hm1.
    - intros r'. simpl. rewrite !elem_of_cons, !elem_of_nil.
      intros [-> | [-> | [-> | []]]]; done. }
  rewrite publish_result.
  match goal with
  | |- context [publish env ?tok w2] =>
      destruct (publish_sameConditions tok w2) as [Hc3 Hm3];
      set (w3 := world (publish env tok w2)) in *
  end.
  destruct (publishFault env) as [ep |]; [| done]. sequence.
  intros [= ->].
  exists [("Provisioned", ConditionTrue, "Provisioned");
          ("TokenIssued", ConditionTrue, "TokenIssued")],
         [("Degraded", ConditionTrue, reasonOf e)].
  split.
  - rewrite (report_conditions env _ _ w3 eq_refl).
    by rewrite Hc3, Hm3, Hc2, Hm2, Hc1, Hm1.
  - intros r'. simpl. rewrite !elem_of_cons, !elem_of_nil.
    intros [-> | [-> | [-> | []]]]; done.
Qed.

End Failure.

(** ** The validation of create and update requests *)

(** C1, as stated, fails: an update that keeps [Roles] present and
    changes its contents (the role [reader] replaced by [writer], all
    else equal) is rejected by the rule of the field, with the message
    "Roles is immutable". *)
Lemma roles_contents_change_rejected :
  Roles specB = Some [reader] ∧ Roles specB_writer = Some [writer]
  ∧ [reader] ≠ [writer]
  ∧ validateCreate specB = []
  ∧ validateUpdate specB specB_writer = [Invalid "roles" "Roles is immutable"]
  ∧ accepted (validateUpdate specB specB_writer) = false.
Proof. repeat split; done. Qed.

(** C1, amended: an update in which [Roles] (or [ClusterRoles]) is
    present in the old and in the new spec with different contents is
    rejected: where the field has a value on both sides its rule
    [self == oldSelf] freezes the contents, as for the two required
    fields. *)
Theorem present_contents_frozen (oldSelf self : t) :
  (∃ lo ln, Roles oldSelf = Some lo ∧ Roles self = Some ln ∧ ln ≠ lo)
  ∨ (∃ lo ln, ClusterRoles oldSelf = Some lo ∧ ClusterRoles self = Some ln ∧ ln ≠ lo) →
  accepted (validateUpdate oldSelf self) = false.
Proof.
  intros H. apply accepted_false. rewrite validateUpdate_nil.
  intros (_ & _ & _ & _ & _ & Hr & Hc).
  rewrite transition_eq_true in Hr. rewrite transition_eq_true in Hc.
  destruct H as [(lo & ln & Ho & Hn & Hne) | (lo & ln & Ho & Hn & Hne)]; eauto.
Qed.

Lemma present_contents_frozen_witness :
  accepted (validateUpdate specB specB_writer) = false
  ∧ accepted (validateUpdate specB specB_auditor) = false.
Proof.
  split.
  - apply (present_contents_frozen specB specB_writer).
    left. exists [reader], [writer]. repeat split; done.
  - apply (present_contents_frozen specB specB_auditor).
    right. exists [viewer], [auditor]. repeat split; done.
Defined.

(** C3: an update whose [TargetClusterProfile] or [ServiceAccountName]
    differs from the old one is rejected. *)
Theorem identity_fields_immutable (oldSelf self : t) :
  TargetClusterProfile self ≠ TargetClusterProfile oldSelf
  ∨ ServiceAccountName self ≠ ServiceAccountName oldSelf →
  accepted (validateUpdate oldSelf self) = false.
Proof.
  intros H. apply accepted_false. rewrite validateUpdate_nil.
  intros (_ & _ & _ & Hp & Hs & _). destruct H; contradiction.
Qed.

Lemma identity_fields_immutable_witness :
  accepted (validateUpdate specA (mk profile2 "svc-a" None None)) = false
  ∧ accepted (validateUpdate specA (mk profile1 "svc-b" None None)) = false.
Proof.
  split.
  - apply (identity_fields_immutable specA (mk profile2 "svc-a" None None)).
    left. simpl. discriminate.
  - apply (identity_fields_immutable specA (mk profile1 "svc-b" None None)).
    right. simpl. discriminate.
Defined.

(** C4: an update that omits [Roles] (respectively [ClusterRoles]) when
    the old spec has it set is rejected. *)
Theorem presence_immutable (oldSelf self : t) :
  (has (Roles oldSelf) = true ∧ has (Roles self) = false)
  ∨ (has (ClusterRoles oldSelf) = true ∧ has (ClusterRoles self) = false) →
  accepted (validateUpdate oldSelf self) = false.
Proof.
  intros H. apply accepted_false. rewrite validateUpdate_nil.
  unfold roles_required_once_set, clusterRoles_required_once_set.
  intros (_ & Hr & Hc & _).
  destruct H as [[Ho Hn] | [Ho Hn]].
  - rewrite Ho, Hn in Hr. discriminate.
  - rewrite Ho, Hn in Hc. discriminate.
Qed.

Lemma presence_immutable_witness :
  accepted (validateUpdate specB specB_noRoles) = false
  ∧ accepted (validateUpdate specB specB_noClusterRoles) = false.
Proof.
  split.
  - apply (presence_immutable specB specB_noRoles). left. split; reflexivity.
  - apply (presence_immutable specB specB_noClusterRoles). right. split; reflexivity.
Defined.

(** C5, as stated, fails: a spec whose [Roles] has two entries with the
    key ("ns1", "reader") is accepted on create, and on the update that
    first sets the field. *)
Lemma duplicate_role_keys_accepted :
  Roles specDup = Some [reader; reader']
  ∧ roleKey reader = roleKey reader'
  ∧ ¬ NoDup (roleKey <$> [reader; reader'])
  ∧ validateCreate specDup = []
  ∧ accepted (validateCreate specDup) = true
  ∧ accepted (validateUpdate specB_noRoles specDup) = true.
Proof.
  repeat split; try done.
  intros H. apply NoDup_cons in H as [H _]. apply H. simpl. left.
Qed.

(** C5, amended: [Roles] is an atomic list bounded by [MaxItems=20],
    with no uniqueness constraint: repeating an entry of an accepted
    list that has room for it gives a list that is accepted as well, two
    entries of which share namespace and name. *)
Theorem roles_list_not_unique (s : t) (l : list Role.t) (r : Role.t) :
  Roles s = Some l → r ∈ l → length l < 20 →
  validateCreate (withRoles (Some (r :: l)) s) = validateCreate s
  ∧ ¬ NoDup (roleKey <$> r :: l).
Proof.
  intros Hs Hr Hl. split.
  - unfold validateCreate, validateSchema, MaxItems. simpl. rewrite Hs.
    rewrite !bool_decide_eq_true_2 by (simpl; lia). done.
  - rewrite fmap_cons, NoDup_cons. intros [Hn _]. apply Hn.
    apply list_elem_of_fmap. eauto.
Qed.

Lemma roles_list_not_unique_witness :
  validateCreate (withRoles (Some [reader; reader]) specB) = validateCreate specB
  ∧ ¬ NoDup (roleKey <$> [reader; reader]).
Proof.
  apply (roles_list_not_unique specB [reader] reader).
  - reflexivity.
  - apply list_elem_of_singleton. reflexivity.
  - simpl. lia.
Defined.

(** C6: the limits are exact.  On create and on update alike, the
    service account name is reported as too long exactly when it has more
    than 63 characters, and each of the two lists as too many exactly
    when it is present with more than 20 entries; a spec within the
    three limits gets no error from these constraints. *)
Theorem cardinality_limits (oldSelf self : t) :
  (TooLong "serviceAccountName" 63 ∈ validateCreate self
     ↔ 63 < String.length (ServiceAccountName self))
  ∧ (TooMany "roles" 20 ∈ validateCreate self
     ↔ ∃ l, Roles self = Some l ∧ 20 < length l)
  ∧ (TooMany "clusterRoles" 20 ∈ validateCreate self
     ↔ ∃ l, ClusterRoles self = Some l ∧ 20 < length l)
  ∧ (TooLong "serviceAccountName" 63 ∈ validateUpdate oldSelf self
     ↔ 63 < String.length (ServiceAccountName self))
  ∧ (TooMany "roles" 20 ∈ validateUpdate oldSelf self
     ↔ ∃ l, Roles self = Some l ∧ 20 < length l)
  ∧ (TooMany "clusterRoles" 20 ∈ validateUpdate oldSelf self
     ↔ ∃ l, ClusterRoles self = Some l ∧ 20 < length l)
  ∧ (validateSchema self = []
     ↔ String.length (ServiceAccountName self) ≤ 63
       ∧ (∀ l, Roles self = Some l → length l ≤ 20)
       ∧ (∀ l, ClusterRoles self = Some l → length l ≤ 20)).
Proof.
  rewrite !validateUpdate_schema, !validateCreate_schema by done.
  unfold validateSchema.
  rewrite !elem_of_app, !MaxLength_elem, !MaxItems_elem.
  rewrite !app_nil, MaxLength_nil, !MaxItems_nil.
  intuition (try discriminate; auto).
Qed.

Lemma cardinality_limits_witness :
  TooLong "serviceAccountName" 63 ∈ validateCreate specLongAccount
  ∧ TooMany "roles" 20 ∈ validateCreate specManyRoles
  ∧ TooMany "clusterRoles" 20 ∈ validateUpdate specA specManyClusterRoles
  ∧ validateSchema specB = [].
Proof.
  split; [| split; [| split]].
  - apply (cardinality_limits specA specLongAccount). simpl. lia.
  - apply (cardinality_limits specA specManyRoles).
    exists (replicate 21 reader). split; [reflexivity | simpl; lia].
  - apply (cardinality_limits specA specManyClusterRoles).
    exists (replicate 21 viewer). split; [reflexivity | simpl; lia].
  - apply (cardinality_limits specA specB).
    split; [simpl; lia |].
    split; intros l [= <-]; simpl; lia.
Defined.

(** C10: the strings of the entries are not constrained.  Rewriting the
    entries of [Roles] and [ClusterRoles] in any way (any namespace, any
    name) leaves the result of schema validation unchanged, and a spec
    whose role and cluster role names have 64 and 70 characters, blanks
    and punctuation among them, is accepted. *)
Theorem entry_names_unconstrained (fr : Role.t → Role.t)
    (fc : ClusterRole.t → ClusterRole.t) (s : t) :
  validateCreate (mapEntries fr fc s) = validateCreate s
  ∧ 63 < String.length name64 ∧ 63 < String.length oddName
  ∧ validateCreate specLongNames = [].
Proof.
  split; [| repeat split; simpl; lia].
  unfold validateCreate, validateSchema, MaxItems, mapEntries. simpl.
  destruct (Roles s), (ClusterRoles s); simpl; rewrite ?length_map; done.
Qed.

(** C2: the config map that [Status.TokenResponse] refers to is in the
    namespace of the request.  Over any passes of the reconciler, a
    config map that is new or has another content afterwards is in the
    namespace of the request, so no token is written elsewhere; and
    after a pass in which the Provisioner succeeds and the Minter and
    the Publisher meet no fault, the config map named by the reference
    of the status (a [ConfigMapRef] has a name and no namespace) is
    there in the namespace of the request. *)
Theorem token_response_same_namespace (opts : Options) (envs : list Env) (env : Env)
    (w : World) :
  (∀ ns name tok,
     configMaps (reconcileAll opts envs w) !! (ns, name) = Some tok →
     configMaps w !! (ns, name) = Some tok
     ∨ ns = ObjectMeta.Namespace (AuthTokenRequest.Meta (request w)))
  ∧ (result (provision opts env w) = inr tt →
     mintFault env = None → publishFault env = None →
     ∃ tok,
       configMaps (reconcile opts env w)
         !! (ObjectMeta.Namespace
               (AuthTokenRequest.Meta (request (reconcile opts env w))),
             ConfigMapRef.Name
               (AuthTokenRequestStatus.TokenResponse
                  (AuthTokenRequest.Status (request (reconcile opts env w)))))
       = Some tok).
Proof.
  split.
  - apply reconcileAll_placed.
  - intros Hprov Hmint Hpub.
    destruct (pass_placed opts env w) as [Hm _]. unfold reconcile. rewrite Hm.
    by apply pass_published.
Qed.

Lemma token_response_same_namespace_witness :
  ∃ tok,
    configMaps (reconcile options1 (quiet 10) worldB)
      !! (ObjectMeta.Namespace
            (AuthTokenRequest.Meta (request (reconcile options1 (quiet 10) worldB))),
          ConfigMapRef.Name
            (AuthTokenRequestStatus.TokenResponse
               (AuthTokenRequest.Status (request (reconcile options1 (quiet 10) worldB)))))
    = Some tok.
Proof.
  apply (proj2 (token_response_same_namespace options1 [] (quiet 10) worldB));
    reflexivity.
Defined.

(** An update is accepted exactly when the new spec meets the value
    constraints, the two required fields are unchanged, and each of
    [Roles] and [ClusterRoles], if the old spec has it, is in the new
    spec with the same contents; a field the old spec does not have may
    be set to any list within the limit. *)
Theorem update_accepted_iff (oldSelf self : t) :
  accepted (validateUpdate oldSelf self) = true ↔
    accepted (validateCreate self) = true
    ∧ TargetClusterProfile self = TargetClusterProfile oldSelf
    ∧ ServiceAccountName self = ServiceAccountName oldSelf
    ∧ (∀ lo, Roles oldSelf = Some lo → Roles self = Some lo)
    ∧ (∀ lo, ClusterRoles oldSelf = Some lo → ClusterRoles self = Some lo).
Proof.
  rewrite !accepted_true, validateUpdate_nil, validateCreate_nil.
  unfold roles_required_once_set, clusterRoles_required_once_set.
  rewrite !transition_eq_true.
  pose proof (once_set_same (Roles oldSelf) (Roles self)) as Hr.
  pose proof (once_set_same (ClusterRoles oldSelf) (ClusterRoles self)) as Hc.
  tauto.
Qed.

(** ** The reconciler *)

(** C7: reconciliation is idempotent on the target cluster.  For every
    request, a second pass under the same faults of the target cluster
    leaves the objects the first pass left; after a pass that met any
    faults, a pass that meets none ends with the objects it would have
    ended with on its own; a pass keeps every object that was there as
    it was; and an object found after a pass was there before or is one
    of the desired objects, created for the request. *)
Theorem reconcile_idempotent (opts : Options) (faults : ObjectId → option Failure)
    (m1 p1 m2 p2 : option Failure) (t1 t2 : Z) (env : Env) (w : World) :
  target (reconcile opts (mkEnv faults m2 p2 t2)
            (reconcile opts (mkEnv faults m1 p1 t1) w))
  = target (reconcile opts (mkEnv faults m1 p1 t1) w)
  ∧ target (reconcile opts (mkEnv (λ _, None) m2 p2 t2) (reconcile opts env w))
    = target (reconcile opts (mkEnv (λ _, None) m2 p2 t2) w)
  ∧ target w ⊆ target (reconcile opts env w)
  ∧ ∀ id o, target (reconcile opts env w) !! id = Some o →
      target w !! id = Some o
      ∨ (CreatedFor o = Some (identity (request w))
         ∧ (id, Body o) ∈ desiredObjects opts (AuthTokenRequest.Spec (request w))).
Proof.
  assert (Hsame : ∀ env0, identity (request (reconcile opts env0 w)) = identity (request w)
            ∧ AuthTokenRequest.Spec (request (reconcile opts env0 w))
              = AuthTokenRequest.Spec (request w)).
  { intros env0. destruct (pass_keeps opts env0 w) as (Hm & Hs & _).
    unfold reconcile, identity. by rewrite Hm, Hs. }
  assert (Hprov : ∀ env0 w0, target (reconcile opts env0 w0)
            = target (world (forEach (ensure env0 (identity (request w0)))
                 (desiredObjects opts (AuthTokenRequest.Spec (request w0))) w0))).
  { intros env0 w0. unfold reconcile. rewrite pass_target.
    by destruct (provision_forEach opts env0 w0) as (_ & -> & _). }
  split_and!.
  - destruct (Hsame (mkEnv faults m1 p1 t1)) as [Hi Hs].
    rewrite (Hprov (mkEnv faults m2 p2 t2) (reconcile opts (mkEnv faults m1 p1 t1) w)).
    rewrite Hi, Hs.
    eapply (forEach_ensure_idem _ (mkEnv faults m1 p1 t1)); [reflexivity | apply Hprov].
  - destruct (Hsame env) as [Hi Hs].
    rewrite (Hprov (mkEnv (λ _, None) m2 p2 t2) (reconcile opts env w)).
    rewrite Hi, Hs, (Hprov (mkEnv (λ _, None) m2 p2 t2) w).
    eapply (forEach_ensure_converge _ env); [done | apply Hprov].
  - rewrite Hprov. apply forEach_ensure_mono.
  - intros id o. rewrite Hprov. apply forEach_ensure_origin.
Qed.

Lemma reconcile_idempotent_witness :
  target (reconcile options1 (quiet 11) (reconcile options1 (rolesDenied 10) worldB))
  = target (reconcile options1 (quiet 11) worldB).
Proof.
  exact (proj1 (proj2 (reconcile_idempotent options1 (λ _, None) None None None None
                         0 11 (rolesDenied 10) worldB))).
Defined.

(** C9: in every pass the calls follow the pipeline: of two calls to
    components at different stages (Provisioner, Minter, Publisher,
    Reporter, in this order) the one of the earlier stage comes first;
    and when a pass calls the Minter, the Provisioner of that pass
    succeeded, so that every desired object is in the target cluster
    and satisfies the contract. *)
Theorem pass_call_order (opts : Options) (env : Env) (w : World) :
  (∀ i j a b,
     callsOf opts env w !! i = Some a → callsOf opts env w !! j = Some b →
     stage a < stage b → i < j)
  ∧ ((∃ c, c ∈ callsOf opts env w ∧ stage c = 1) →
     result (provision opts env w) = inr tt
     ∧ ∀ d, d ∈ desiredObjects opts (AuthTokenRequest.Spec (request w)) →
         ∃ o, target (reconcile opts env w) !! d.1 = Some o
              ∧ satisfies (identity (request w)) d.1 o = true).
Proof.
  split; [apply pass_ordered |].
  intros (c & Hc & Hst).
  destruct (pass_trace opts env w) as (ms & pubs & rs & Htr & Hm & Hp & Hr & Hok).
  pose proof (forEach_ensure_trace (identity (request w)) env
                (desiredObjects opts (AuthTokenRequest.Spec (request w))) w) as H0.
  destruct (provision_forEach opts env w) as (Hres & Hw & Ht). rewrite <- Ht in H0.
  assert (ms ≠ []) as Hne.
  { intros ->. rewrite Htr in Hc. rewrite Forall_forall in H0, Hp, Hr.
    rewrite !elem_of_app in Hc. destruct Hc as [Hc | [Hc | [Hc | Hc]]].
    - specialize (H0 c Hc). simpl in H0. lia.
    - by apply elem_of_nil in Hc.
    - specialize (Hp c Hc). simpl in Hp. lia.
    - specialize (Hr c Hc). simpl in Hr. lia. }
  specialize (Hok Hne). split; [done |].
  intros d Hd. unfold reconcile. rewrite pass_target, Hw.
  apply forEach_ensure_ok; [| done]. by rewrite <- Hres.
Qed.

Lemma pass_call_order_witness :
  0 < 6
  ∧ result (provision options1 (quiet 10) worldB) = inr tt.
Proof.
  split.
  - apply (proj1 (pass_call_order options1 (quiet 10) worldB) 0 6
             (ProvisionerCall ("Namespace", "", "ns1")) (MinterCall "svc-a"));
      [reflexivity | reflexivity | simpl; lia].
  - apply (proj2 (pass_call_order options1 (quiet 10) worldB)).
    exists (MinterCall "svc-a"). split; [| reflexivity].
    apply (list_elem_of_lookup_2 _ 6). reflexivity.
Defined.

(** C8: the conditions of a request never shrink, and a regression is
    recorded.  Over any passes of a lifetime the types of the condition
    records stay, in their order, as a prefix of the types after, so the
    number of records does not go down.  A pass that ends with a failure
    leaves a record that the request is not ready, with the reason of
    the failure; when the records said ready before (or said nothing),
    it is the record of this pass, with the time of the pass: the
    transition from ready to not ready is written down, and the records
    of the other types are all still there. *)
Theorem conditions_never_shrink (opts : Options) (envs : list Env) (env : Env)
    (w : World) (e : Failure) :
  typesOf w `prefix_of` typesOf (reconcileAll opts envs w)
  ∧ length (conditions w) ≤ length (conditions (reconcileAll opts envs w))
  ∧ (failureOf opts env w = Some e →
     (∃ c, c ∈ conditions (reconcile opts env w)
        ∧ Condition.Type_ c = "Ready" ∧ Condition.Status c = ConditionFalse
        ∧ Condition.Reason c = reasonOf e)
     ∧ ((∀ c0, c0 ∈ conditions w → Condition.Type_ c0 = "Ready" →
           Condition.Status c0 = ConditionTrue) →
        notReady env w e ∈ conditions (reconcile opts env w))).
Proof.
  destruct (reconcileAll_keeps opts envs w) as (_ & _ & Hp).
  split_and!.
  - done.
  - apply prefix_length in Hp. unfold typesOf in Hp.
    by rewrite !length_fmap in Hp.
  - intros Hfail.
    destruct (pass_failure_conditions opts env w e Hfail) as (pre & post & -> & Hothers).
    destruct (reported_entry env
                (ObjectMeta.Generation (AuthTokenRequest.Meta (request w)))
                pre ("Ready", ConditionFalse, reasonOf e) post (conditions w) Hothers)
      as [Hrec Hnew].
    split; [exact Hrec |].
    intros Hready. apply Hnew. intros c0 Hc0 Ht. simpl.
    rewrite (Hready c0 Hc0 Ht). done.
Qed.

Lemma conditions_never_shrink_witness :
  Condition.mk "Ready" ConditionFalse 1 20 "TargetUnreachable" ""
  ∈ conditions (reconcile options1 (unreachable 20)
                  (reconcile options1 (quiet 10) worldB)).
Proof.
  apply (proj2 (proj2 (conditions_never_shrink options1 [] (unreachable 20)
                         (reconcile options1 (quiet 10) worldB) Unreachable))).
  - reflexivity.
  - assert (conditions (reconcile options1 (quiet 10) worldB)
            = [Condition.mk "Provisioned" ConditionTrue 1 10 "Provisioned" "";
               Condition.mk "TokenIssued" ConditionTrue 1 10 "TokenIssued" "";
               Condition.mk "Ready" ConditionTrue 1 10 "Published" "";
               Condition.mk "Degraded" ConditionFalse 1 10 "Reconciled" ""]) as ->
      by reflexivity.
    intros c0 Hc0 Ht.
    rewrite !elem_of_cons, elem_of_nil in Hc0.
    destruct Hc0 as [-> | [-> | [-> | [-> | []]]]]; done.
Defined.

(** ** Facts on updates *)

(** When an update is accepted, in terms of the fields. *)
Lemma validateUpdate_accepted (oldSelf self : t) :
  accepted (validateUpdate oldSelf self) = true ↔
    validateSchema self = []
    ∧ TargetClusterProfile self = TargetClusterProfile oldSelf
    ∧ ServiceAccountName self = ServiceAccountName oldSelf
    ∧ (∀ lo, Roles oldSelf = Some lo → Roles self = Some lo)
    ∧ (∀ lo, ClusterRoles oldSelf = Some lo → ClusterRoles self = Some lo).
Proof.
  rewrite accepted_true, validateUpdate_nil.
  unfold roles_required_once_set, clusterRoles_required_once_set.
  rewrite !transition_eq_true.
  pose proof (once_set_same (Roles oldSelf) (Roles self)) as Hr.
  pose proof (once_set_same (ClusterRoles oldSelf) (ClusterRoles self)) as Hc.
  tauto.
Qed.

(** A spec is its four fields. *)
Lemma spec_eq (s s' : t) :
  TargetClusterProfile s = TargetClusterProfile s' →
  ServiceAccountName s = ServiceAccountName s' →
  Roles s = Roles s' → ClusterRoles s = ClusterRoles s' → s = s'.
Proof. destruct s, s'; simpl; congruence. Qed.

(** An accepted update that changes the spec sets a list the old spec
    does not have. *)
Lemma validateUpdate_accepted_absent (oldSelf self : t) :
  accepted (validateUpdate oldSelf self) = true →
  absent self ≤ absent oldSelf
  ∧ (self ≠ oldSelf → absent self < absent oldSelf).
Proof.
  rewrite validateUpdate_accepted. intros (_ & Hp & Hs & Hr & Hc).
  unfold absent.
  destruct (Roles oldSelf) as [ro|] eqn:Ero, (ClusterRoles oldSelf) as [co|] eqn:Eco;
    rewrite ?(Hr _ eq_refl), ?(Hc _ eq_refl); simpl.
  - split; [lia |]. intros Hne. destruct Hne.
    apply spec_eq; try done; rewrite ?Ero, ?Eco; eauto.
  - destruct (ClusterRoles self) as [cn|] eqn:Ecn; simpl; (split; [lia |]);
      [lia |]. intros Hne. destruct Hne.
    apply spec_eq; try done; rewrite ?Ero, ?Eco; eauto.
  - destruct (Roles self) as [rn|] eqn:Ern; simpl; (split; [lia |]);
      [lia |]. intros Hne. destruct Hne.
    apply spec_eq; try done; rewrite ?Ero, ?Eco; eauto.
  - destruct (Roles self) as [rn|] eqn:Ern, (ClusterRoles self) as [cn|] eqn:Ecn;
      simpl; (split; [lia |]); try lia.
    intros Hne. destruct Hne.
    apply spec_eq; try done; rewrite ?Ero, ?Eco; eauto.
Qed.

(** ** Further properties of the validation *)

(** An update that changes nothing reports what a create of the same
    spec reports: no rule on [oldSelf] rejects a spec against itself. *)
Theorem update_unchanged (s : t) : validateUpdate s s = validateCreate s.
Proof.
  unfold validateUpdate, validateCreate.
  assert (validateTransition s s = []) as ->; [| done].
  unfold validateTransition. rewrite !app_nil, !XValidation_nil.
  unfold roles_required_once_set, clusterRoles_required_once_set.
  rewrite !transition_eq_true. unfold self_eq_oldSelf.
  rewrite !bool_decide_eq_true.
  split_and!; try done; try congruence.
  - by destruct (Roles s).
  - by destruct (ClusterRoles s).
Qed.

(** Accepted updates compose: when an update from [s1] to [s2] and one
    from [s2] to [s3] are accepted, the update from [s1] to [s3] is. *)
Theorem update_trans (s1 s2 s3 : t) :
  accepted (validateUpdate s1 s2) = true →
  accepted (validateUpdate s2 s3) = true →
  accepted (validateUpdate s1 s3) = true.
Proof.
  rewrite !validateUpdate_accepted.
  intros (_ & Hp & Hs & Hr & Hc) (Hv & Hp' & Hs' & Hr' & Hc').
  split_and!; try done; try congruence; eauto.
Qed.

Lemma update_trans_witness :
  accepted (validateUpdate specA specA_viewer) = true.
Proof.
  apply (update_trans specA specA_reader specA_viewer); reflexivity.
Defined.

(** Whatever updates are requested, accepted or not, the stored spec
    keeps its target cluster profile and its service account name, a
    list that is set keeps its contents (an empty list included), and a
    spec that was valid when created stays valid. *)
Theorem stored_spec_invariants (s : t) (news : list t) :
  TargetClusterProfile (applyUpdates s news) = TargetClusterProfile s
  ∧ ServiceAccountName (applyUpdates s news) = ServiceAccountName s
  ∧ (∀ l, Roles s = Some l → Roles (applyUpdates s news) = Some l)
  ∧ (∀ l, ClusterRoles s = Some l → ClusterRoles (applyUpdates s news) = Some l)
  ∧ (validateCreate s = [] → validateCreate (applyUpdates s news) = []).
Proof.
  revert s. induction news as [|new rest IH]; intros s; [done |].
  simpl. destruct (accepted (validateUpdate s new)) eqn:Hacc; [| apply IH].
  apply validateUpdate_accepted in Hacc as (Hv & Hp & Hs & Hr & Hc).
  destruct (IH new) as (Hp' & Hs' & Hr' & Hc' & Hv').
  split_and!; try congruence; eauto.
  intros _. apply Hv'. by apply validateCreate_nil.
Qed.

Lemma stored_spec_invariants_witness :
  Roles (applyUpdates specEmptyRoles [specA_reader; specA; specB]) = Some [].
Proof.
  apply (stored_spec_invariants specEmptyRoles [specA_reader; specA; specB]).
  reflexivity.
Defined.

(** A spec that has both lists is frozen: no sequence of update
    requests changes the stored spec, so the rules granted by its roles
    and cluster roles stay what they were. *)
Theorem full_spec_frozen (s : t) (news : list t) :
  has (Roles s) = true → has (ClusterRoles s) = true →
  applyUpdates s news = s.
Proof.
  intros Hr Hc. induction news as [|new rest IH]; [done |].
  simpl. destruct (accepted (validateUpdate s new)) eqn:Hacc; [| exact IH].
  destruct (validateUpdate_accepted_absent s new Hacc) as [_ Hlt].
  destruct (decide (new = s)) as [-> | Hne]; [exact IH |].
  specialize (Hlt Hne). unfold absent in Hlt. rewrite Hr, Hc in Hlt. simpl in Hlt. lia.
Qed.

Lemma full_spec_frozen_witness :
  applyUpdates specB [specB_writer; specB_noRoles; specDup; specB_auditor] = specB.
Proof.
  apply (full_spec_frozen specB [specB_writer; specB_noRoles; specDup; specB_auditor]);
    reflexivity.
Defined.

(** A stored spec changes at most twice: each request that changes it
    sets a list it did not have, and there are two lists. *)
Theorem spec_changes_at_most_twice (s : t) (news : list t) :
  changes s news + absent (applyUpdates s news) ≤ absent s
  ∧ changes s news ≤ 2.
Proof.
  assert (H : ∀ s, changes s news + absent (applyUpdates s news) ≤ absent s).
  { clear s. induction news as [|new rest IH]; intros s; simpl; [lia |].
    destruct (accepted (validateUpdate s new)) eqn:Hacc; [| apply IH].
    destruct (validateUpdate_accepted_absent s new Hacc) as [Hle Hlt].
    specialize (IH new). case_bool_decide as Heq; [lia |].
    specialize (Hlt Heq). lia. }
  split; [apply H |].
  specialize (H s). assert (absent s ≤ 2); [| lia].
  unfold absent. destruct (has (Roles s)), (has (ClusterRoles s)); simpl; lia.
Qed.

(** After the CEL rules, the schema can only object to a list that the
    update sets for the first time: when the old spec is valid and no
    rule rejects the update, an error of the new spec is the excess of
    a list the old spec does not have. *)
Theorem limits_after_rules (oldSelf self : t) (e : FieldError) :
  validateCreate oldSelf = [] →
  validateTransition oldSelf self = [] →
  e ∈ validateSchema self →
  (e = TooMany "roles" 20 ∧ Roles oldSelf = None)
  ∨ (e = TooMany "clusterRoles" 20 ∧ ClusterRoles oldSelf = None).
Proof.
  rewrite validateCreate_nil. unfold validateSchema, validateTransition.
  rewrite !app_nil, MaxLength_nil, !MaxItems_nil, !XValidation_nil.
  unfold roles_required_once_set, clusterRoles_required_once_set.
  rewrite !transition_eq_true. unfold self_eq_oldSelf.
  rewrite !bool_decide_eq_true.
  intros (Hn & Hr & Hc) (Hpr & Hpc & _ & Hs & Her & Hec).
  rewrite !elem_of_app, MaxLength_elem, !MaxItems_elem.
  intros [[Hlen _] | [[(ln & Hln & Hlen) ->] | [(ln & Hln & Hlen) ->]]].
  - rewrite Hs in Hlen. lia.
  - left. split; [done |].
    destruct (Roles oldSelf) as [lo|] eqn:Elo; [| done].
    rewrite (Her lo ln eq_refl Hln) in Hlen. specialize (Hr lo eq_refl). lia.
  - right. split; [done |].
    destruct (ClusterRoles oldSelf) as [lo|] eqn:Elo; [| done].
    rewrite (Hec lo ln eq_refl Hln) in Hlen. specialize (Hc lo eq_refl). lia.
Qed.

Lemma limits_after_rules_witness :
  (TooMany "roles" 20 = TooMany "roles" 20 ∧ Roles specA = None)
  ∨ (TooMany "roles" 20 = TooMany "clusterRoles" 20 ∧ ClusterRoles specA = None).
Proof.
  apply (limits_after_rules specA specManyRoles (TooMany "roles" 20)).
  - reflexivity.
  - reflexivity.
  - apply list_elem_of_here.
Defined.

(** The messages of the rules about the two lists, by their causes. *)
Lemma transition_messages (oldSelf self : t) :
  (rolesRequired ∈ validateTransition oldSelf self
     ↔ has (Roles oldSelf) = true ∧ has (Roles self) = false)
  ∧ (rolesImmutable ∈ validateTransition oldSelf self
     ↔ ∃ lo ln, Roles oldSelf = Some lo ∧ Roles self = Some ln ∧ ln ≠ lo)
  ∧ (clusterRolesRequired ∈ validateTransition oldSelf self
     ↔ has (ClusterRoles oldSelf) = true ∧ has (ClusterRoles self) = false)
  ∧ (clusterRolesImmutable ∈ validateTransition oldSelf self
     ↔ ∃ lo ln, ClusterRoles oldSelf = Some lo ∧ ClusterRoles self = Some ln ∧ ln ≠ lo)
  ∧ ¬ (rolesRequired ∈ validateTransition oldSelf self
       ∧ rolesImmutable ∈ validateTransition oldSelf self)
  ∧ ¬ (clusterRolesRequired ∈ validateTransition oldSelf self
       ∧ clusterRolesImmutable ∈ validateTransition oldSelf self)
  ∧ length (validateTransition oldSelf self) ≤ 4.
Proof.
  unfold rolesRequired, rolesImmutable, clusterRolesRequired, clusterRolesImmutable.
  unfold validateTransition.
  rewrite !elem_of_app, !XValidation_elem, !length_app.
  assert (Hrr : roles_required_once_set oldSelf self = false
                ↔ has (Roles oldSelf) = true ∧ has (Roles self) = false).
  { unfold roles_required_once_set.
    destruct (has (Roles oldSelf)), (has (Roles self)); simpl; intuition congruence. }
  assert (Hcr : clusterRoles_required_once_set oldSelf self = false
                ↔ has (ClusterRoles oldSelf) = true ∧ has (ClusterRoles self) = false).
  { unfold clusterRoles_required_once_set.
    destruct (has (ClusterRoles oldSelf)), (has (ClusterRoles self)); simpl;
      intuition congruence. }
  assert (Hti : ∀ A (H : EqDecision A) (o s : option A),
            transition self_eq_oldSelf o s = false
            ↔ ∃ lo ln, o = Some lo ∧ s = Some ln ∧ ln ≠ lo).
  { intros A H o s. destruct o as [a|], s as [b|]; simpl; unfold self_eq_oldSelf;
      rewrite ?bool_decide_eq_false.
    - split; [eauto | by intros (? & ? & [= <-] & [= <-] & ?)].
    - split; [done | by intros (? & ? & ? & ? & ?)].
    - split; [done | by intros (? & ? & ? & ? & ?)].
    - split; [done | by intros (? & ? & ? & ? & ?)]. }
  rewrite <- Hrr, <- Hcr, <- !Hti.
  split_and!.
  - split; [intros H; repeat destruct H as [H | H]; by destruct H | auto].
  - split; [intros H; repeat destruct H as [H | H]; by destruct H | auto 10].
  - split; [intros H; repeat destruct H as [H | H]; by destruct H | auto].
  - split; [intros H; repeat destruct H as [H | H]; by destruct H | auto 10].
  - intros [H1 H2].
    assert (roles_required_once_set oldSelf self = false) as H1'
      by (repeat destruct H1 as [H1 | H1]; by destruct H1).
    assert (transition self_eq_oldSelf (Roles oldSelf) (Roles self) = false) as H2'
      by (repeat destruct H2 as [H2 | H2]; by destruct H2).
    apply Hrr in H1' as [_ H1']. apply Hti in H2' as (? & ? & _ & H2' & _).
    rewrite H2' in H1'. done.
  - intros [H1 H2].
    assert (clusterRoles_required_once_set oldSelf self = false) as H1'
      by (repeat destruct H1 as [H1 | H1]; by destruct H1).
    assert (transition self_eq_oldSelf (ClusterRoles oldSelf) (ClusterRoles self) = false)
      as H2' by (repeat destruct H2 as [H2 | H2]; by destruct H2).
    apply Hcr in H1' as [_ H1']. apply Hti in H2' as (? & ? & _ & H2' & _).
    rewrite H2' in H1'. done.
  - clear Hrr Hcr Hti.
    unfold roles_required_once_set, clusterRoles_required_once_set, XValidation.
    destruct (Roles oldSelf) as [ro|], (Roles self) as [rn|],
      (ClusterRoles oldSelf) as [co|], (ClusterRoles self) as [cn|]; simpl;
      repeat (case_match; simpl); lia.
Qed.

(** The two rules about a list never fire together.  The rules are
    checked when the schema accepts the new spec; an update is then told
    that a list is required once set exactly when it drops the list, and
    that a list is immutable exactly when it keeps the list with other
    contents; it is never told both about the same list, and the rules
    report at most four violations. *)
Theorem list_messages_exclusive (oldSelf self : t) :
  (rolesRequired ∈ validateUpdate oldSelf self
     ↔ validateSchema self = []
       ∧ has (Roles oldSelf) = true ∧ has (Roles self) = false)
  ∧ (rolesImmutable ∈ validateUpdate oldSelf self
     ↔ validateSchema self = []
       ∧ ∃ lo ln, Roles oldSelf = Some lo ∧ Roles self = Some ln ∧ ln ≠ lo)
  ∧ (clusterRolesRequired ∈ validateUpdate oldSelf self
     ↔ validateSchema self = []
       ∧ has (ClusterRoles oldSelf) = true ∧ has (ClusterRoles self) = false)
  ∧ (clusterRolesImmutable ∈ validateUpdate oldSelf self
     ↔ validateSchema self = []
       ∧ ∃ lo ln, ClusterRoles oldSelf = Some lo ∧ ClusterRoles self = Some ln ∧ ln ≠ lo)
  ∧ ¬ (rolesRequired ∈ validateUpdate oldSelf self
       ∧ rolesImmutable ∈ validateUpdate oldSelf self)
  ∧ ¬ (clusterRolesRequired ∈ validateUpdate oldSelf self
       ∧ clusterRolesImmutable ∈ validateUpdate oldSelf self)
  ∧ length (validateTransition oldSelf self) ≤ 4.
Proof.
  destruct (transition_messages oldSelf self) as (T1 & T2 & T3 & T4 & E1 & E2 & L).
  assert (Hin : ∀ e, (∃ f m, e = Invalid f m) → e ≠ rulesNotChecked →
            e ∈ validateUpdate oldSelf self
            ↔ validateSchema self = [] ∧ e ∈ validateTransition oldSelf self).
  { intros e (f & m & ->) Hne.
    destruct (validateUpdate_cases oldSelf self) as [[Hs ->] | [Hs ->]].
    - rewrite elem_of_app, list_elem_of_singleton. split; [| by intros [? _]].
      intros [H | H]; [| done]. unfold validateSchema in H.
      rewrite !elem_of_app, MaxLength_elem, !MaxItems_elem in H.
      destruct H as [[_ ?] | [[_ ?] | [_ ?]]]; done.
    - tauto. }
  rewrite !Hin by (try (eexists _, _; reflexivity); done).
  rewrite T1, T2, T3, T4. split_and!; try tauto; try done.
Qed.
